(** * LRUCache (core/templates/lru.h): a shallow embedding and its properties

    The class keeps a doubly-linked [List<Pair>] ([_list], front = most
    recently used) and a [HashMap<TKey, Element>] ([_map]) whose values are
    pointers to list nodes, together with a [size_t capacity].

    Nodes have an identity (their address); an [Element] is a nullable node
    pointer.  Member functions are written in a state-and-failure monad over
    the record of the three fields.  The hash map is a [gmap]; the linked
    list is the sequence of its nodes, front first. *)

From stdpp Require Import gmap strings list fin_maps.

Local Open Scope N_scope.

(** ** Outcomes of a member function *)

Inductive outcome (A : Type) : Type :=
  | Ret (a : A)   (* normal return *)
  | Crash         (* CRASH_COND fired: the process is terminated *)
  | Undefined     (* a null or dangling Element was dereferenced *)
  | OutOfFuel.    (* loop budget exhausted; shown below never to happen *)
Arguments Ret {A} a.
Arguments Crash {A}.
Arguments Undefined {A}.
Arguments OutOfFuel {A}.

(** ** Node addresses and elements *)

Abbreviation addr := positive.

(** [typedef typename List<Pair>::Element *Element;] a nullable pointer. *)
Abbreviation Element := (option addr).
Definition nullptr : Element := None.

(** [size_t] is taken to be 64 bits wide. *)
Definition size_t_bits : Z := 64.

Section LRUCache.

Context {TKey : Type} `{Countable TKey} {TData : Type}.

(** [struct Pair { TKey key; TData data; }] *)
Record Pair : Type := mkPair { key : TKey; data : TData }.

(** ** The list primitive (core/templates/list.h, not among the sources)

    The spec describes it as a doubly-linked ordered container that owns its
    nodes, with push_front (returning a stable reference to the new node),
    move_to_front, erase by reference, pop_back and front/back peek.  Here a
    list is the sequence of its nodes, front first, each with its address.
    Handing an operation a reference that is null or not a node of the list
    is outside that contract: the operation then has no result ([None]). *)

(** Modelled from the spec: the type [List<Pair>], as the sequence of its
    nodes (address and payload), most recently used first. *)
Abbreviation List := (list (addr * Pair)).

(** Modelled from the spec: the node allocator behind [push_front]; the
    reference it returns is "stable until the node itself is erased", so a
    new node gets an address that no node of the list occupies. *)
Definition fresh_addr (l : List) : addr :=
  Pos.succ (foldr Pos.max 1%positive l.*1).

(** Modelled from the spec: following a reference into the list, the payload
    of the node at address [a], if there is one. *)
Fixpoint node_at (a : addr) (l : List) : option Pair :=
  match l with
  | [] => None
  | (b, p) :: l' => if decide (a = b) then Some p else node_at a l'
  end.

(** Modelled from the spec: relinking around the node at address [a]; the
    other nodes keep their order. *)
Fixpoint unlink (a : addr) (l : List) : List :=
  match l with
  | [] => []
  | (b, p) :: l' => if decide (a = b) then l' else (b, p) :: unlink a l'
  end.

(** Modelled from the spec: [push_front(entry)] "inserts a new node at the
    head" and "returns a stable reference to the new node". *)
Definition List_push_front (p : Pair) (l : List) : Element * List :=
  let a := fresh_addr l in (Some a, (a, p) :: l).

(** Modelled from the spec: [front()], a peek without mutation; null on the
    empty list. *)
Definition List_front (l : List) : Element := fst <$> head l.

(** Modelled from the spec: [back()], a peek without mutation; null on the
    empty list. *)
Definition List_back (l : List) : Element := fst <$> last l.

(** Modelled from the spec: [e->get()], the payload a node reference leads
    to; none through a null or dangling reference. *)
Definition List_get (e : Element) (l : List) : option Pair :=
  match e with
  | Some a => node_at a l
  | None => None
  end.

(** Modelled from the spec: [erase(node_ref)], "removal given a direct
    reference". *)
Definition List_erase (e : Element) (l : List) : option List :=
  match List_get e l, e with
  | Some _, Some a => Some (unlink a l)
  | _, _ => None
  end.

(** Modelled from the spec: [move_to_front(node_ref)], a relink with "no
    effect on stored value". *)
Definition List_move_to_front (e : Element) (l : List) : option List :=
  match List_get e l, e with
  | Some p, Some a => Some ((a, p) :: unlink a l)
  | _, _ => None
  end.

(** Modelled from the spec: [pop_back()] "removes the tail node"; nothing to
    remove on the empty list. *)
Definition List_pop_back (l : List) : List := removelast l.

(** Modelled from the spec: [clear()] empties the list. *)
Definition List_clear (l : List) : List := [].

(** ** The cache object

    [HashMap] (core/templates/hash_map.h) is not among the sources either; the
    spec describes it as a key-to-location mapping with lookup, insert and
    erase and no ordering of its own, which is what a [gmap] is.  The number
    of keys always fits the unsigned type [size()] returns, so the comparison
    with [capacity] is on naturals. *)

Record LRUCache : Type := mkLRUCache {
  _list : List;
  _map : gmap TKey Element;
  capacity : N
}.

(** [LRUCache() { capacity = 64; }] *)
Definition LRUCache_default : LRUCache :=
  {| _list := []; _map := ∅; capacity := 64 |}.

(** [LRUCache(int p_capacity) { capacity = p_capacity; }]: the conversion
    from [int] to [size_t] wraps modulo 2^64. *)
Definition LRUCache_int (p_capacity : Z) : LRUCache :=
  {| _list := []; _map := ∅;
     capacity := Z.to_N (p_capacity mod 2 ^ size_t_bits) |}.

(** ** The monad of member functions *)

Definition M (A : Type) : Type := LRUCache → outcome (A * LRUCache).

Definition ret {A} (a : A) : M A := λ c, Ret (a, c).

Definition bind {A B} (m : M A) (f : A → M B) : M B := λ c,
  match m c with
  | Ret (a, c') => f a c'
  | Crash => Crash
  | Undefined => Undefined
  | OutOfFuel => OutOfFuel
  end.

Notation "'let!' x ':=' m 'in' k" := (bind m (λ x, k))
  (at level 10, x pattern, m at level 100, k at level 200).
Notation "m1 ';;;' m2" := (bind m1 (λ _, m2))
  (at level 100, m2 at level 200, right associativity).

(** Modelled from the spec: [CRASH_COND] of core/error/error_macros.h, a
    "fatal fast-fail (process-terminating assertion)": nothing after it runs. *)
Definition crash {A} : M A := λ _, Crash.

Definition out_of_fuel {A} : M A := λ _, OutOfFuel.

(** Modelled from the spec: [_map.getptr(k)], the index lookup, "returns
    found/not-found": a pointer to the stored element or null. *)
Definition map_getptr (k : TKey) : M (option Element) :=
  λ c, Ret (_map c !! k, c).

(** Modelled from the spec: [_map.erase(k)], the index erase. *)
Definition map_erase (k : TKey) : M unit :=
  λ c, Ret (tt, {| _list := _list c; _map := delete k (_map c);
                   capacity := capacity c |}).

(** Modelled from the spec: [_map[k] = e], the index insert, replacing what
    [k] was mapped to. *)
Definition map_assign (k : TKey) (e : Element) : M unit :=
  λ c, Ret (tt, {| _list := _list c; _map := <[k := e]> (_map c);
                   capacity := capacity c |}).

(** Modelled from the spec: [_map.clear()] empties the index. *)
Definition map_clear : M unit :=
  λ c, Ret (tt, {| _list := _list c; _map := ∅; capacity := capacity c |}).

(** Modelled from the spec: [_map.size()], the number of keys. *)
Definition map_size : M N :=
  λ c, Ret (N.of_nat (size (_map c)), c).

(** Running a list operation on the field [_list]. *)
Definition with_list {A} (f : List → A * List) : M A :=
  λ c, let '(a, l) := f (_list c) in
       Ret (a, {| _list := l; _map := _map c; capacity := capacity c |}).
Definition with_list_partial (f : List → option List) : M unit :=
  λ c, match f (_list c) with
       | Some l => Ret (tt, {| _list := l; _map := _map c;
                               capacity := capacity c |})
       | None => Undefined
       end.

Definition list_push_front (p : Pair) : M Element :=
  with_list (List_push_front p).
Definition list_front : M Element := with_list (λ l, (List_front l, l)).
Definition list_back : M Element := with_list (λ l, (List_back l, l)).
Definition list_erase (e : Element) : M unit :=
  with_list_partial (List_erase e).
Definition list_move_to_front (e : Element) : M unit :=
  with_list_partial (List_move_to_front e).
Definition list_pop_back : M unit := with_list (λ l, (tt, List_pop_back l)).
Definition list_clear : M unit := with_list (λ l, (tt, List_clear l)).
Definition list_get (e : Element) : M Pair :=
  λ c, match List_get e (_list c) with
       | Some p => Ret (p, c)
       | None => Undefined
       end.

Definition read_capacity : M N := λ c, Ret (capacity c, c).
Definition write_capacity (n : N) : M unit :=
  λ c, Ret (tt, {| _list := _list c; _map := _map c; capacity := n |}).

(** ** Member functions *)

(** The body of the eviction loop:
    [Element d = _list.back(); _map.erase(d->get().key); _list.pop_back();] *)
Definition evict_step : M unit :=
  let! d := list_back in
  let! p := list_get d in
  map_erase (key p) ;;;
  list_pop_back.

(** [while (_map.size() > capacity) { ... }] with a budget of iterations. *)
Fixpoint evict_loop (fuel : nat) : M unit :=
  match fuel with
  | O => out_of_fuel
  | S fuel' =>
      let! s := map_size in
      let! cap := read_capacity in
      if cap <? s then evict_step ;;; evict_loop fuel' else ret tt
  end.

(** Every iteration pops a node or is undefined, so one more iteration than
    there are nodes is a sufficient budget (see [evict_loop_enough]). *)
Definition evict : M unit :=
  λ c, evict_loop (S (length (_list c))) c.

(** [const TData *insert(const TKey &p_key, const TData &p_value)]; the
    result [&n->get().data] is represented by the node [n] it points into. *)
Definition insert (p_key : TKey) (p_value : TData) : M Element :=
  let! e := map_getptr p_key in
  let! n := list_push_front (mkPair p_key p_value) in
  match e with
  | Some e' => list_erase e' ;;; map_erase p_key
  | None => ret tt
  end ;;;
  let! f := list_front in
  map_assign p_key f ;;;
  evict ;;;
  ret n.

(** [void clear()] *)
Definition clear : M unit :=
  map_clear ;;; list_clear.

(** [bool has(const TKey &p_key) const] *)
Definition has (p_key : TKey) : M bool :=
  let! e := map_getptr p_key in
  ret (match e with Some _ => true | None => false end).

(** [const TData &get(const TKey &p_key)]; the reference returned is
    represented by the node holding the data. *)
Definition get (p_key : TKey) : M Element :=
  let! e := map_getptr p_key in
  match e with
  | None => crash
  | Some e' => list_move_to_front e' ;;; ret e'
  end.

(** [const TData *getptr(const TKey &p_key)] *)
Definition getptr (p_key : TKey) : M Element :=
  let! e := map_getptr p_key in
  match e with
  | None => ret nullptr
  | Some e' => list_move_to_front e' ;;; ret e'
  end.

(** [size_t get_capacity() const] and [size_t get_size() const] *)
Definition get_capacity : M N := read_capacity.
Definition get_size : M N := map_size.

(** [void set_capacity(size_t p_capacity)] *)
Definition set_capacity (p_capacity : N) : M unit :=
  let! cap := read_capacity in
  if 0 <? cap then write_capacity p_capacity ;;; evict else ret tt.

(** ** Observations used in the statements *)

(** The entries in recency order, most recently used first. *)
Definition entries (c : LRUCache) : list Pair := (_list c).*2.

(** The key of the front (most recently used) node. *)
Definition front_key (c : LRUCache) : option TKey :=
  (key ∘ snd) <$> head (_list c).

(** The key of the back (least recently used) node. *)
Definition back_key (c : LRUCache) : option TKey :=
  (key ∘ snd) <$> last (_list c).

(** Reading through a pointer or reference a member function returned. *)
Definition deref (c : LRUCache) (r : Element) : option TData :=
  data <$> List_get r (_list c).

(** The value the cache stores for a key: follow the index into the list. *)
Definition stored (c : LRUCache) (k : TKey) : option TData :=
  match _map c !! k with
  | Some e => deref c e
  | None => None
  end.

(** ** Invariants of the data model *)

(** Invariant 1: node addresses are distinct, and the index maps [k] to a
    pointer exactly when that pointer is a node of the list with key [k]. *)
Record consistent (c : LRUCache) : Prop := mkConsistent {
  consistent_addr : NoDup (_list c).*1;
  consistent_index : ∀ k e,
    _map c !! k = Some e ↔ ∃ a v, e = Some a ∧ (a, mkPair k v) ∈ _list c
}.

(** Invariant 3. *)
Definition within_capacity (c : LRUCache) : Prop :=
  N.of_nat (size (_map c)) <= capacity c.

Definition wf (c : LRUCache) : Prop := consistent c ∧ within_capacity c.

(** ** Operation sequences *)

Inductive op : Type :=
  | OpInsert (k : TKey) (v : TData)
  | OpGet (k : TKey)
  | OpGetptr (k : TKey)
  | OpHas (k : TKey)
  | OpClear
  | OpSetCapacity (n : N).

Definition forget {A} (m : M A) : M unit := m ;;; ret tt.

Definition run_op (o : op) : M unit :=
  match o with
  | OpInsert k v => forget (insert k v)
  | OpGet k => forget (get k)
  | OpGetptr k => forget (getptr k)
  | OpHas k => forget (has k)
  | OpClear => clear
  | OpSetCapacity n => set_capacity n
  end.

Fixpoint run (ops : list op) : M unit :=
  match ops with
  | [] => ret tt
  | o :: ops' => run_op o ;;; run ops'
  end.

(** The two constructors. *)
Inductive constructed : LRUCache → Prop :=
  | constructed_default : constructed LRUCache_default
  | constructed_int (p_capacity : Z) :
      (- 2 ^ 31 <= p_capacity < 2 ^ 31)%Z →
      constructed (LRUCache_int p_capacity).

Definition reachable (c : LRUCache) : Prop :=
  ∃ c0 ops, constructed c0 ∧ run ops c0 = Ret (tt, c).

(** ** States named in the statements *)

(** The nodes whose key is not [k], in order. *)
Definition without (k : TKey) (l : List) : List :=
  filter (λ n, key n.2 ≠ k) l.

(** The state [insert] reaches before it runs the eviction loop. *)
Definition inserted (k : TKey) (v : TData) (c : LRUCache) : LRUCache :=
  {| _list := (fresh_addr (_list c), mkPair k v) :: without k (_list c);
     _map := <[k := Some (fresh_addr (_list c))]> (_map c);
     capacity := capacity c |}.

(** The state after the node [(a, p)] between [l1] and [l2] was moved to the
    front. *)
Definition touched (a : addr) (p : Pair) (l1 l2 : List) (c : LRUCache) :
    LRUCache :=
  {| _list := (a, p) :: l1 ++ l2; _map := _map c; capacity := capacity c |}.

(** The state [set_capacity] reaches before it runs the eviction loop. *)
Definition resized (n : N) (c : LRUCache) : LRUCache :=
  {| _list := _list c; _map := _map c; capacity := n |}.

(** The predicate of the caches that are empty with capacity zero. *)
Definition empty_zero (c : LRUCache) : Prop :=
  consistent c ∧ capacity c = 0 ∧ size (_map c) = 0%nat.

(** ** A list model of the cache

    The cache seen from outside is its entries in recency order and its
    capacity.  The functions below say what each operation does to that pair;
    [run_refines] shows that the member functions do exactly this. *)

(** Moving the entry of [k] to the front; none when [k] has no entry. *)
Definition model_touch (k : TKey) (es : list Pair) : option (list Pair) :=
  match filter (λ p, key p = k) es with
  | p :: _ => Some (p :: filter (λ p, key p ≠ k) es)
  | [] => None
  end.

(** One operation on the entries and the capacity; [None] is the crash. *)
Definition model_op (o : op) (s : list Pair * N) : option (list Pair * N) :=
  let '(es, cap) := s in
  match o with
  | OpInsert k v =>
      Some (take (N.to_nat cap) (mkPair k v :: filter (λ p, key p ≠ k) es),
            cap)
  | OpGet k =>
      match model_touch k es with
      | Some es' => Some (es', cap)
      | None => None
      end
  | OpGetptr k =>
      match model_touch k es with
      | Some es' => Some (es', cap)
      | None => Some (es, cap)
      end
  | OpHas k => Some (es, cap)
  | OpClear => Some ([], cap)
  | OpSetCapacity n =>
      if 0 <? cap then Some (take (N.to_nat n) es, n) else Some (es, cap)
  end.

Fixpoint model_run (ops : list op) (s : list Pair * N) :
    option (list Pair * N) :=
  match ops with
  | [] => Some s
  | o :: ops' =>
      match model_op o s with
      | Some s' => model_run ops' s'
      | None => None
      end
  end.

(** The sequence of inserts of the given entries, first to last. *)
Definition inserts (ps : list Pair) : list op :=
  (λ p, OpInsert (key p) (data p)) <$> ps.

(** The operations that only name keys from [ks]. *)
Definition touches (ks : list TKey) (o : op) : Prop :=
  match o with
  | OpInsert k _ | OpGet k | OpGetptr k | OpHas k => k ∈ ks
  | OpClear | OpSetCapacity _ => False
  end.

(** The entry [(k, v)] is in the cache, preceded by keys from [ks] only. *)
Definition behind_only (k : TKey) (v : TData) (ks : list TKey)
    (c : LRUCache) : Prop :=
  ∃ front back,
    entries c = front ++ mkPair k v :: back ∧
    Forall (λ q, key q ∈ ks) front.

(** * Properties *)

(** ** The list primitive *)

Lemma fresh_addr_bound (l : List) a :
  a ∈ l.*1 → (a < fresh_addr l)%positive.
Proof.
  unfold fresh_addr. induction l as [|[b p] l IH]; csimpl.
  - intros Hin. inversion Hin.
  - pose proof (Pos.le_max_l b (foldr Pos.max 1%positive l.*1)).
    pose proof (Pos.le_max_r b (foldr Pos.max 1%positive l.*1)).
    rewrite elem_of_cons. intros [->|Hin]; [lia|].
    specialize (IH Hin). lia.
Qed.

Lemma fresh_addr_fresh (l : List) : fresh_addr l ∉ l.*1.
Proof. intros Hin. apply fresh_addr_bound in Hin. lia. Qed.

Lemma node_at_elem_of (l : List) a p : node_at a l = Some p → (a, p) ∈ l.
Proof.
  induction l as [|[b q] l IH]; simpl; [done|].
  case_decide as Hab.
  - intros [= ->]. subst. left.
  - intros Hn. right. auto.
Qed.

Lemma node_at_not_elem_of (l : List) a : a ∉ l.*1 → node_at a l = None.
Proof.
  induction l as [|[b q] l IH]; simpl; [done|].
  rewrite not_elem_of_cons. intros [Hab Hl].
  case_decide; [done|]. auto.
Qed.

Lemma unlink_not_elem_of (l : List) a : a ∉ l.*1 → unlink a l = l.
Proof.
  induction l as [|[b q] l IH]; simpl; [done|].
  rewrite not_elem_of_cons. intros [Hab Hl].
  case_decide; [done|]. f_equal. auto.
Qed.

Lemma node_at_middle (l1 l2 : List) a p :
  a ∉ l1.*1 → node_at a (l1 ++ (a, p) :: l2) = Some p.
Proof.
  induction l1 as [|[b q] l1 IH]; simpl.
  - intros _. by rewrite decide_True.
  - rewrite not_elem_of_cons. intros [Hab Hl].
    rewrite decide_False by done. auto.
Qed.

Lemma unlink_middle (l1 l2 : List) a p :
  a ∉ l1.*1 → unlink a (l1 ++ (a, p) :: l2) = l1 ++ l2.
Proof.
  induction l1 as [|[b q] l1 IH]; simpl.
  - intros _. by rewrite decide_True.
  - rewrite not_elem_of_cons. intros [Hab Hl].
    rewrite decide_False by done. f_equal. auto.
Qed.

(** A node of a list with distinct addresses splits the list around it. *)
Lemma node_split (l : List) a p :
  NoDup (l.*1) → (a, p) ∈ l →
  ∃ l1 l2, l = l1 ++ (a, p) :: l2 ∧ (a ∉ l1.*1) ∧ (a ∉ l2.*1).
Proof.
  intros Hnd Hin. apply list_elem_of_split in Hin as (l1 & l2 & ->).
  exists l1, l2. split; [done|].
  rewrite fmap_app, fmap_cons in Hnd. simpl in Hnd.
  apply NoDup_app in Hnd as (_ & Hdisj & Hnd2).
  apply NoDup_cons in Hnd2 as [Hnot _].
  split; [|done]. intros Hin. apply (Hdisj a Hin). left.
Qed.

Lemma node_at_Some (l : List) a p :
  NoDup (l.*1) → (node_at a l = Some p ↔ (a, p) ∈ l).
Proof.
  intros Hnd. split; [apply node_at_elem_of|].
  intros Hin. destruct (node_split l a p Hnd Hin) as (l1 & l2 & -> & H1 & _).
  by apply node_at_middle.
Qed.

(** ** Consequences of consistency *)

Lemma index_size (l : List) (m : gmap TKey Element) :
  NoDup (l.*1) →
  (∀ k e, m !! k = Some e ↔ ∃ a v, e = Some a ∧ (a, mkPair k v) ∈ l) →
  size m = length l.
Proof.
  revert m. induction l as [|[a [k v]] l IH]; intros m Hnd Hidx.
  - apply map_size_empty_iff, map_eq. intros k. rewrite lookup_empty.
    apply eq_None_not_Some. intros [e He].
    apply Hidx in He as (a & v & _ & Hin). inversion Hin.
  - rewrite fmap_cons in Hnd. apply NoDup_cons in Hnd as [Ha Hnd].
    assert (Hk : m !! k = Some (Some a)).
    { apply Hidx. exists a, v. split; [done|]. left. }
    rewrite <- (insert_delete_id m k (Some a)) by done.
    rewrite map_size_insert_None by apply lookup_delete_eq.
    simpl. f_equal. apply IH; [done|].
    intros k' e. rewrite lookup_delete_Some, Hidx. split.
    + intros (Hne & a' & v' & -> & Hin). exists a', v'. split; [done|].
      apply elem_of_cons in Hin as [Heq|Hin]; [|done]. congruence.
    + intros (a' & v' & -> & Hin). split.
      * intros <-. assert (Hk' : m !! k = Some (Some a')).
        { apply Hidx. exists a', v'. split; [done|]. by right. }
        rewrite Hk in Hk'. injection Hk' as ->.
        apply Ha. apply list_elem_of_fmap. by exists (a', mkPair k v').
      * exists a', v'. split; [done|]. by right.
Qed.

(** Invariant 2: the index and the list have the same number of entries. *)
Lemma consistent_size c : consistent c → size (_map c) = length (_list c).
Proof. intros [Hnd Hidx]. by apply index_size. Qed.

(** The list determines the index. *)
Lemma consistent_ext c1 c2 :
  consistent c1 → consistent c2 → _list c1 = _list c2 → _map c1 = _map c2.
Proof.
  intros [_ H1] [_ H2] Hl. apply map_eq. intros k. apply option_eq. intros e.
  rewrite H1, H2, Hl. done.
Qed.

(** Keys are distinct along the list. *)
Lemma consistent_key_addr c a1 a2 k v1 v2 :
  consistent c → (a1, mkPair k v1) ∈ _list c → (a2, mkPair k v2) ∈ _list c →
  a1 = a2.
Proof.
  intros [_ Hidx] Hin1 Hin2.
  assert (H1 : _map c !! k = Some (Some a1)) by (apply Hidx; eauto).
  assert (H2 : _map c !! k = Some (Some a2)) by (apply Hidx; eauto).
  congruence.
Qed.

Lemma consistent_lookup_None c k :
  consistent c → _map c !! k = None → ∀ a p, (a, p) ∈ _list c → key p ≠ k.
Proof.
  intros [_ Hidx] Hk a [k' v] Hin Heq. simpl in Heq. subst k'.
  assert (H1 : _map c !! k = Some (Some a)) by (apply Hidx; eauto).
  congruence.
Qed.

Lemma consistent_lookup_Some c k e :
  consistent c → _map c !! k = Some e →
  ∃ a v l1 l2, e = Some a ∧ _list c = l1 ++ (a, mkPair k v) :: l2 ∧
    (a ∉ l1.*1) ∧ (a ∉ l2.*1) ∧
    (∀ b p, (b, p) ∈ l1 ++ l2 → key p ≠ k).
Proof.
  intros Hc Hk. pose proof Hc as [Hnd Hidx].
  apply Hidx in Hk as (a & v & -> & Hin).
  destruct (node_split _ _ _ Hnd Hin) as (l1 & l2 & Hl & H1 & H2).
  exists a, v, l1, l2. repeat split; try done.
  intros b [k' v'] Hb Heq. simpl in Heq. subst k'.
  assert (b = a) as ->.
  { apply (consistent_key_addr c b a k v' v); [done| |done].
    rewrite Hl. apply elem_of_app in Hb as [Hb|Hb].
    - apply elem_of_app. by left.
    - apply elem_of_app. right. by right. }
  apply elem_of_app in Hb as [Hb|Hb].
  - apply H1. apply list_elem_of_fmap. by exists (a, mkPair k v').
  - apply H2. apply list_elem_of_fmap. by exists (a, mkPair k v').
Qed.

(** ** The eviction loop *)

(** One iteration on a non-empty consistent cache removes exactly the back
    node and its key. *)
Lemma evict_step_back c l a p :
  consistent c → _list c = l ++ [(a, p)] →
  evict_step c =
    Ret (tt, {| _list := l; _map := delete (key p) (_map c);
                capacity := capacity c |}).
Proof.
  intros [Hnd _] Hl.
  unfold evict_step, bind, list_back, list_get, map_erase, list_pop_back,
    with_list, List_back, List_pop_back. simpl.
  rewrite Hl, last_snoc. simpl.
  rewrite Hl, fmap_app in Hnd. apply NoDup_app in Hnd as (_ & Hdisj & _).
  rewrite node_at_middle.
  - simpl. by rewrite removelast_last.
  - intros Hin. apply (Hdisj a Hin). left.
Qed.

Lemma evict_step_consistent c l a p :
  consistent c → _list c = l ++ [(a, p)] →
  consistent {| _list := l; _map := delete (key p) (_map c);
                capacity := capacity c |}.
Proof.
  intros Hc Hl. pose proof Hc as [Hnd Hidx]. split; simpl.
  - rewrite Hl, fmap_app in Hnd. by apply NoDup_app in Hnd as (? & _ & _).
  - intros k e. rewrite lookup_delete_Some, Hidx, Hl. split.
    + intros (Hne & b & v & -> & Hin). exists b, v. split; [done|].
      apply elem_of_app in Hin as [Hin|Hin]; [done|].
      apply list_elem_of_singleton in Hin. injection Hin as -> <-. done.
    + intros (b & v & -> & Hin). split.
      * intros Hk. destruct p as [k' v']. simpl in Hk. subst k'.
        assert (b = a) as ->.
        { apply (consistent_key_addr c b a k v v'); [done| |].
          - rewrite Hl, elem_of_app. by left.
          - rewrite Hl, elem_of_app. right. left. }
        rewrite Hl, fmap_app in Hnd.
        apply NoDup_app in Hnd as (_ & Hdisj & _).
        apply (Hdisj a); [|left].
        apply list_elem_of_fmap. by exists (a, mkPair k v).
      * exists b, v. split; [done|]. apply elem_of_app. by left.
Qed.

(** On a consistent cache the loop returns, having kept the [capacity] most
    recently used nodes. *)
Lemma evict_loop_spec fuel c :
  consistent c → (length (_list c) < fuel)%nat →
  ∃ c', evict_loop fuel c = Ret (tt, c') ∧ consistent c' ∧
        _list c' = take (N.to_nat (capacity c)) (_list c) ∧
        capacity c' = capacity c.
Proof.
  revert c. induction fuel as [|fuel IH]; intros c Hc Hlen; [lia|].
  simpl. unfold bind at 1, map_size. unfold bind at 1, read_capacity.
  rewrite (consistent_size c Hc).
  destruct (N.ltb_spec (capacity c) (N.of_nat (length (_list c)))) as [Hlt|Hge].
  - destruct (exists_last (l:=_list c)) as (l & [a p] & Hl).
    { intros Hnil. rewrite Hnil in Hlt. simpl in Hlt. lia. }
    unfold bind. rewrite (evict_step_back c l a p Hc Hl).
    pose proof (evict_step_consistent c l a p Hc Hl) as Hc'.
    rewrite Hl, length_app in Hlen. rewrite Hl, length_app in Hlt.
    simpl in Hlen, Hlt.
    destruct (IH _ Hc') as (c' & Hrun & Hc'' & Hl' & Hcap); [simpl; lia|].
    exists c'. simpl in Hl', Hcap. rewrite Hrun. split_and!; try done.
    rewrite Hl', Hl. symmetry. apply take_app_le. lia.
  - exists c. split_and!; try done.
    symmetry. apply take_ge. lia.
Qed.

Lemma evict_spec c :
  consistent c →
  ∃ c', evict c = Ret (tt, c') ∧ consistent c' ∧
        _list c' = take (N.to_nat (capacity c)) (_list c) ∧
        capacity c' = capacity c.
Proof. intros Hc. apply evict_loop_spec; [done|lia]. Qed.

(** The budget is never exhausted, whatever the state. *)
Lemma evict_loop_enough fuel c :
  (length (_list c) < fuel)%nat → evict_loop fuel c ≠ OutOfFuel.
Proof.
  revert c. induction fuel as [|fuel IH]; intros c Hlen; [lia|].
  simpl. unfold bind at 1, map_size. unfold bind at 1, read_capacity.
  destruct (capacity c <? N.of_nat (size (_map c))); [|done].
  unfold bind at 1, evict_step, bind, list_back, list_get, map_erase,
    list_pop_back, with_list, List_back, List_pop_back. simpl.
  destruct (last (_list c)) as [[a p]|] eqn:Hlast; simpl; [|done].
  destruct (node_at a (_list c)); [|done].
  apply IH. simpl. apply last_Some in Hlast as [l' Hl'].
  rewrite Hl', removelast_last. rewrite Hl', length_app in Hlen.
  simpl in Hlen. lia.
Qed.

Lemma evict_terminates c : evict c ≠ OutOfFuel.
Proof. apply evict_loop_enough. lia. Qed.

(** ** insert *)

Lemma filter_Forall_id {A} (P : A → Prop) `{∀ x, Decision (P x)} (l : list A) :
  Forall P l → filter P l = l.
Proof.
  induction 1 as [|x l Hx _ IH]; [done|].
  rewrite filter_cons_True by done. by f_equal.
Qed.

Lemma without_addr k (l : List) a : a ∈ (without k l).*1 → a ∈ l.*1.
Proof.
  intros Hin. apply list_elem_of_fmap in Hin as ([b p] & -> & Hin).
  apply list_elem_of_filter in Hin as [_ Hin].
  apply list_elem_of_fmap. by exists (b, p).
Qed.

Lemma without_NoDup k (l : List) : NoDup (l.*1) → NoDup ((without k l).*1).
Proof.
  induction l as [|[a p] l IH]; [done|].
  rewrite fmap_cons. intros [Ha Hnd]%NoDup_cons. unfold without.
  destruct (decide (key p ≠ k)) as [Hk|Hk].
  - rewrite filter_cons_True by done. rewrite fmap_cons.
    apply NoDup_cons. split; [|by apply IH].
    intros Hin. by apply Ha, (without_addr k).
  - rewrite filter_cons_False by done. by apply IH.
Qed.

Lemma without_absent c k :
  consistent c → _map c !! k = None → without k (_list c) = _list c.
Proof.
  intros Hc Hk. apply filter_Forall_id, Forall_forall. intros [a p] Hin.
  simpl. by apply (consistent_lookup_None c k Hc Hk a).
Qed.

Lemma without_present c k a :
  consistent c → _map c !! k = Some (Some a) →
  unlink a (_list c) = without k (_list c) ∧ a ∈ (_list c).*1.
Proof.
  intros Hc Hk.
  destruct (consistent_lookup_Some c k _ Hc Hk)
    as (a' & v & l1 & l2 & [= <-] & Hl & H1 & H2 & Hkeys).
  rewrite Hl, unlink_middle by done. split.
  - unfold without. rewrite filter_app, filter_cons_False by (simpl; tauto).
    rewrite <- filter_app. symmetry.
    apply filter_Forall_id, Forall_forall. intros [b p] Hin. simpl.
    by apply (Hkeys b).
  - rewrite fmap_app, fmap_cons, elem_of_app. right. left.
Qed.

Lemma inserted_consistent c k v : consistent c → consistent (inserted k v c).
Proof.
  intros [Hnd Hidx]. split; unfold inserted; cbn [_list _map].
  - rewrite fmap_cons. apply NoDup_cons. split; [|by apply without_NoDup].
    intros Hin%without_addr. by apply (fresh_addr_fresh (_list c)).
  - intros k' e. rewrite lookup_insert_Some, Hidx. split.
    + intros [[<- <-]|(Hne & b & v' & -> & Hin)].
      * eexists _, v. split; [done|]. left.
      * exists b, v'. split; [done|]. right.
        apply list_elem_of_filter. split; [simpl; congruence|done].
    + intros (b & v' & -> & Hin). apply elem_of_cons in Hin as [Heq|Hin].
      * left. injection Heq as -> -> ->. done.
      * apply list_elem_of_filter in Hin as [Hne Hin]. simpl in Hne.
        right. split; [congruence|]. by exists b, v'.
Qed.

Lemma insert_unfold c k v :
  consistent c →
  insert k v c =
    match evict (inserted k v c) with
    | Ret (_, c') => Ret (Some (fresh_addr (_list c)), c')
    | Crash => Crash
    | Undefined => Undefined
    | OutOfFuel => OutOfFuel
    end.
Proof.
  intros Hc. unfold insert, bind at 1. unfold map_getptr.
  unfold bind at 1. unfold list_push_front, with_list, List_push_front.
  cbn [_list _map capacity].
  destruct (_map c !! k) as [e|] eqn:Hk.
  - destruct (consistent_index c Hc k e) as [Hin _].
    destruct (Hin Hk) as (a & v0 & -> & _).
    destruct (without_present c k a Hc Hk) as [Hun Ha].
    assert (Hne : a ≠ fresh_addr (_list c)).
    { intros ->. by apply (fresh_addr_fresh (_list c)). }
    unfold bind at 1. unfold bind at 1.
    unfold list_erase, with_list_partial, List_erase, List_get.
    cbn [_list _map capacity node_at unlink].
    rewrite !decide_False by done.
    destruct (node_at a (_list c)) as [p0|] eqn:Hnode.
    2:{ apply list_elem_of_fmap in Ha as ([a' p'] & -> & Hin').
        apply (node_at_Some _ _ _ (consistent_addr c Hc)) in Hin'.
        simpl in Hnode. congruence. }
    unfold map_erase. cbn [_list _map capacity].
    unfold bind at 1. unfold list_front, with_list, List_front.
    cbn [_list _map capacity head fmap option_fmap option_map fst].
    unfold bind at 1. unfold map_assign. cbn [_list _map capacity].
    rewrite insert_delete_eq, Hun. unfold bind, ret, inserted.
    by destruct (evict _) as [[[] c']| | |].
  - unfold bind at 1. unfold ret at 1.
    unfold bind at 1. unfold list_front, with_list, List_front.
    cbn [_list _map capacity head fmap option_fmap option_map fst].
    unfold bind at 1. unfold map_assign. cbn [_list _map capacity].
    rewrite <- (without_absent c k Hc Hk) at 2.
    unfold bind, ret, inserted.
    by destruct (evict _) as [[[] c']| | |].
Qed.

(** [insert] on a consistent cache returns a pointer into the new front
    node; the list afterwards is the new node followed by the other entries
    in their old order, cut to the capacity. *)
Lemma insert_spec c k v :
  consistent c →
  ∃ c', insert k v c = Ret (Some (fresh_addr (_list c)), c') ∧
        consistent c' ∧
        _list c' = take (N.to_nat (capacity c))
                     ((fresh_addr (_list c), mkPair k v) :: without k (_list c)) ∧
        capacity c' = capacity c.
Proof.
  intros Hc. rewrite insert_unfold by done.
  destruct (evict_spec _ (inserted_consistent c k v Hc))
    as (c' & -> & Hc' & Hl & Hcap).
  exists c'. split_and!; done.
Qed.

(** ** get and getptr *)

Lemma touched_consistent c a p l1 l2 :
  consistent c → _list c = l1 ++ (a, p) :: l2 →
  consistent (touched a p l1 l2 c).
Proof.
  intros [Hnd Hidx] Hl. split; unfold touched; cbn [_list _map].
  - rewrite Hl in Hnd. revert Hnd.
    rewrite fmap_cons, !fmap_app, fmap_cons. cbn [fst].
    intros Hnd. apply NoDup_ListNoDup. apply NoDup_ListNoDup in Hnd.
    apply List.NoDup_cons_iff. split.
    + by apply List.NoDup_remove_2.
    + by apply List.NoDup_remove_1 in Hnd.
  - intros k e. rewrite Hidx, Hl.
    setoid_rewrite elem_of_cons. setoid_rewrite elem_of_app.
    setoid_rewrite elem_of_cons.
    split; intros (b & v & -> & Hin); exists b, v; (split; [done|tauto]).
Qed.

Lemma get_present c k e :
  consistent c → _map c !! k = Some e →
  ∃ a v l1 l2,
    e = Some a ∧ _list c = l1 ++ (a, mkPair k v) :: l2 ∧ (a ∉ l1.*1) ∧
    get k c = Ret (Some a, touched a (mkPair k v) l1 l2 c).
Proof.
  intros Hc Hk.
  destruct (consistent_lookup_Some c k e Hc Hk)
    as (a & v & l1 & l2 & -> & Hl & H1 & _ & _).
  exists a, v, l1, l2. split_and!; try done.
  unfold get, bind at 1. unfold map_getptr. rewrite Hk.
  unfold bind, list_move_to_front, with_list_partial, List_move_to_front,
    List_get, ret, touched.
  by rewrite Hl, node_at_middle, unlink_middle.
Qed.

Lemma get_absent c k : _map c !! k = None → get k c = Crash.
Proof. intros Hk. unfold get, bind, map_getptr. by rewrite Hk. Qed.

Lemma getptr_absent c k : _map c !! k = None → getptr k c = Ret (nullptr, c).
Proof. intros Hk. unfold getptr, bind, map_getptr. by rewrite Hk. Qed.

Lemma getptr_present c k e : _map c !! k = Some e → getptr k c = get k c.
Proof. intros Hk. unfold getptr, get, bind, map_getptr. by rewrite Hk. Qed.

(** ** has, clear, set_capacity *)

Lemma has_unfold c k :
  has k c = Ret (bool_decide (is_Some (_map c !! k)), c).
Proof.
  unfold has, bind, map_getptr, ret. destruct (_map c !! k) as [e|].
  - by rewrite bool_decide_eq_true_2.
  - rewrite bool_decide_eq_false_2; [done|]. by intros [? ?].
Qed.

Lemma clear_unfold c :
  clear c = Ret (tt, {| _list := []; _map := ∅; capacity := capacity c |}).
Proof. reflexivity. Qed.

Lemma empty_consistent n :
  consistent {| _list := []; _map := ∅; capacity := n |}.
Proof.
  split; cbn [_list _map].
  - constructor.
  - intros k e. rewrite lookup_empty. split; [done|].
    intros (a & v & _ & Hin). inversion Hin.
Qed.

Lemma resized_consistent n c : consistent c → consistent (resized n c).
Proof. intros [Hnd Hidx]. by split. Qed.

Lemma set_capacity_unfold c n :
  set_capacity n c =
    if 0 <? capacity c then evict (resized n c) else Ret (tt, c).
Proof.
  unfold set_capacity, bind at 1. unfold read_capacity.
  destruct (0 <? capacity c); [|done].
  unfold bind, write_capacity, resized.
  by destruct (evict _) as [[[] c']| | |].
Qed.

Lemma set_capacity_spec c n :
  consistent c → 0 < capacity c →
  ∃ c', set_capacity n c = Ret (tt, c') ∧ consistent c' ∧
        _list c' = take (N.to_nat n) (_list c) ∧ capacity c' = n.
Proof.
  intros Hc Hcap. rewrite set_capacity_unfold.
  apply N.ltb_lt in Hcap as ->.
  apply (evict_spec _ (resized_consistent n c Hc)).
Qed.

(** ** Well-formedness is preserved *)

Lemma wf_of_take c' (l : List) :
  consistent c' → _list c' = take (N.to_nat (capacity c')) l → wf c'.
Proof.
  intros Hc' Hl. split; [done|]. unfold within_capacity.
  rewrite (consistent_size c' Hc'), Hl, length_take. lia.
Qed.

Lemma constructed_wf c : constructed c → wf c.
Proof.
  intros [|p Hp]; (split; [apply empty_consistent|]);
    unfold within_capacity, LRUCache_default, LRUCache_int;
    cbn [_map capacity]; rewrite map_size_empty; lia.
Qed.

(** An operation on a well-formed cache either returns a well-formed cache,
    or is a [get] of an absent key, which crashes. *)
Lemma run_op_wf o c :
  wf c →
  (∃ c', run_op o c = Ret (tt, c') ∧ wf c') ∨
  (∃ k, o = OpGet k ∧ _map c !! k = None ∧ run_op o c = Crash).
Proof.
  intros [Hc Hcap]. destruct o as [k v|k|k|k| |n]; cbn [run_op].
  - left. destruct (insert_spec c k v Hc) as (c' & Hrun & Hc' & Hl & Hcap').
    exists c'. unfold forget, bind, ret. rewrite Hrun. split; [done|].
    eapply (wf_of_take c' _ Hc'). rewrite Hcap'. exact Hl.
  - destruct (_map c !! k) as [e|] eqn:Hk.
    + left. destruct (get_present c k e Hc Hk)
        as (a & v & l1 & l2 & -> & Hl & _ & Hrun).
      eexists. unfold forget, bind, ret. rewrite Hrun. split; [done|].
      split; [by apply touched_consistent|done].
    + right. exists k. split_and!; try done.
      unfold forget, bind. by rewrite get_absent.
  - left. destruct (_map c !! k) as [e|] eqn:Hk.
    + destruct (get_present c k e Hc Hk)
        as (a & v & l1 & l2 & -> & Hl & _ & Hrun).
      eexists. unfold forget, bind, ret.
      rewrite (getptr_present c k _ Hk), Hrun. split; [done|].
      split; [by apply touched_consistent|done].
    + exists c. unfold forget, bind, ret. by rewrite getptr_absent.
  - left. exists c. unfold forget, bind, ret. by rewrite has_unfold.
  - left. eexists. rewrite clear_unfold. split; [done|].
    split; [apply empty_consistent|].
    unfold within_capacity. cbn [_map capacity]. rewrite map_size_empty. lia.
  - left. rewrite set_capacity_unfold.
    destruct (N.ltb_spec 0 (capacity c)) as [Hpos|Hzero].
    + destruct (evict_spec _ (resized_consistent n c Hc))
        as (c' & Hrun & Hc' & Hl & Hcap').
      exists c'. split; [done|]. eapply (wf_of_take c' _ Hc').
      rewrite Hcap'. exact Hl.
    + by exists c.
Qed.

Lemma run_wf ops c c' : wf c → run ops c = Ret (tt, c') → wf c'.
Proof.
  revert c. induction ops as [|o ops IH]; intros c Hwf; cbn [run].
  - unfold ret. by intros [= <-].
  - unfold bind.
    destruct (run_op_wf o c Hwf) as [(c1 & -> & Hwf1)|(k & _ & _ & ->)];
      [|done].
    by apply IH.
Qed.

Lemma reachable_wf c : reachable c → wf c.
Proof.
  intros (c0 & ops & Hc0 & Hrun).
  by apply (run_wf ops c0 c (constructed_wf c0 Hc0)).
Qed.

(** A sequence of operations from a well-formed cache never dereferences a
    null or dangling element and never exhausts the loop budget: it returns,
    or it stops at the [CRASH_COND] of [get]. *)
Lemma run_defined ops c :
  wf c → (∃ c', run ops c = Ret (tt, c')) ∨ run ops c = Crash.
Proof.
  revert c. induction ops as [|o ops IH]; intros c Hwf; cbn [run].
  - left. by exists c.
  - unfold bind.
    destruct (run_op_wf o c Hwf) as [(c1 & -> & Hwf1)|(k & _ & _ & ->)].
    + by apply IH.
    + by right.
Qed.

(** ** Observers *)

Lemma has_true_iff c k : has k c = Ret (true, c) ↔ is_Some (_map c !! k).
Proof.
  rewrite has_unfold. split.
  - intros [= Hb]. by apply bool_decide_eq_true in Hb.
  - intros Hk. by rewrite bool_decide_eq_true_2.
Qed.

Lemma has_false_iff c k : has k c = Ret (false, c) ↔ _map c !! k = None.
Proof.
  rewrite has_unfold. split.
  - intros [= Hb]. apply bool_decide_eq_false in Hb.
    by apply eq_None_not_Some.
  - intros Hk. rewrite bool_decide_eq_false_2; [done|].
    rewrite Hk. by intros [? ?].
Qed.

Lemma consistent_has_key c k :
  consistent c → (is_Some (_map c !! k) ↔ k ∈ key <$> entries c).
Proof.
  intros [_ Hidx]. unfold entries. split.
  - intros [e He]. apply Hidx in He as (a & v & _ & Hin).
    apply list_elem_of_fmap. exists (mkPair k v). split; [done|].
    apply list_elem_of_fmap. by exists (a, mkPair k v).
  - intros Hin. apply list_elem_of_fmap in Hin as ([k' v] & -> & Hin).
    apply list_elem_of_fmap in Hin as ([a p] & Heq & Hin).
    simpl in Heq. subst p. exists (Some a). apply Hidx. by exists a, v.
Qed.

Lemma consistent_front c a k v l :
  consistent c → _list c = (a, mkPair k v) :: l →
  _map c !! k = Some (Some a).
Proof.
  intros [_ Hidx] Hl. apply Hidx. exists a, v. split; [done|].
  rewrite Hl. left.
Qed.

(** A [get] of the key at the front leaves the list as it is. *)
Lemma get_front c a k v l :
  consistent c → _list c = (a, mkPair k v) :: l →
  get k c = Ret (Some a, touched a (mkPair k v) [] l c).
Proof.
  intros Hc Hl. unfold get, bind at 1. unfold map_getptr.
  rewrite (consistent_front c a k v l Hc Hl).
  unfold bind, list_move_to_front, with_list_partial, List_move_to_front,
    List_get, ret, touched.
  rewrite Hl. cbn [node_at unlink]. by rewrite !decide_True.
Qed.

(** ** Invariant 2 and 3 along operation sequences *)

(** C1. From a cache constructed with capacity at least 1, no sequence of
    public operations dereferences a dangling element or exhausts the loop
    budget, and whenever the sequence completes, the index and the recency
    list have the same number of entries, [get_size()] returns that number,
    and it is at most the current capacity. *)
Theorem size_invariant c0 ops :
  constructed c0 → 1 <= capacity c0 →
  (run ops c0 ≠ Undefined ∧ run ops c0 ≠ OutOfFuel) ∧
  ∀ c, run ops c0 = Ret (tt, c) →
    size (_map c) = length (_list c) ∧
    get_size c = Ret (N.of_nat (length (_list c)), c) ∧
    get_capacity c = Ret (capacity c, c) ∧
    N.of_nat (length (_list c)) <= capacity c.
Proof.
  intros Hc0 _. pose proof (constructed_wf c0 Hc0) as Hwf0. split.
  - destruct (run_defined ops c0 Hwf0) as [[c' ->]| ->]; by split.
  - intros c Hrun. destruct (run_wf ops c0 c Hwf0 Hrun) as [Hc Hcap].
    pose proof (consistent_size c Hc) as Hsize. split_and!; try done.
    + unfold get_size, map_size. by rewrite Hsize.
    + unfold within_capacity in Hcap. by rewrite Hsize in Hcap.
Qed.

(** ** Recency *)

(** C2. On a consistent cache, a [get(k)] whose precondition holds returns
    with [has(k)] true and [k] the key of the front node; an [insert(k, v)]
    returns, and if [has(k)] holds afterwards (as it does when the capacity is
    at least 1) then [k] is the key of the front node. *)
Theorem front_after_access c k v :
  consistent c →
  (has k c = Ret (true, c) →
   ∃ r c', get k c = Ret (r, c') ∧ has k c' = Ret (true, c') ∧
           front_key c' = Some k) ∧
  (∃ r c', insert k v c = Ret (r, c') ∧
           (has k c' = Ret (true, c') → front_key c' = Some k) ∧
           (1 <= capacity c → has k c' = Ret (true, c'))).
Proof.
  intros Hc. split.
  - intros [e Hk]%has_true_iff.
    destruct (get_present c k e Hc Hk) as (a & v0 & l1 & l2 & -> & Hl & _ & Hrun).
    eexists _, _. split; [exact Hrun|]. split; [|done].
    apply has_true_iff. unfold touched. cbn [_map]. by rewrite Hk.
  - destruct (insert_spec c k v Hc) as (c' & Hrun & Hc' & Hl & Hcap).
    eexists _, c'. split; [exact Hrun|]. split.
    + intros [e He]%has_true_iff.
      apply (consistent_index c' Hc') in He as (a & v' & _ & Hin).
      destruct (N.to_nat (capacity c)) as [|n].
      * rewrite Hl in Hin. inversion Hin.
      * unfold front_key. by rewrite Hl.
    + intros Hpos. apply has_true_iff.
      destruct (N.to_nat (capacity c)) as [|n] eqn:Hn; [lia|].
      cbn [take] in Hl. rewrite (consistent_front c' _ k v _ Hc' Hl). eauto.
Qed.

(** ** Eviction *)

(** C3. Whenever the eviction loop of [insert] or [set_capacity] takes a
    step (the cache is consistent and holds more keys than the capacity), the
    step removes the node at the back of the list and erases that node's key,
    which was present, from the index; the other nodes keep their order and
    their data, the index and the stored value of every other key are
    unchanged, and the loop continues from the resulting state. *)
Theorem eviction_step c :
  consistent c → capacity c < N.of_nat (size (_map c)) →
  ∃ l a p c',
    _list c = l ++ [(a, p)] ∧ back_key c = Some (key p) ∧
    evict_step c = Ret (tt, c') ∧
    has (key p) c = Ret (true, c) ∧
    has (key p) c' = Ret (false, c') ∧
    _list c' = l ∧
    (∀ k, k ≠ key p → _map c' !! k = _map c !! k) ∧
    (∀ k, k ≠ key p → stored c' k = stored c k) ∧
    capacity c' = capacity c ∧
    consistent c' ∧
    evict c = evict c'.
Proof.
  intros Hc Hlt. rewrite (consistent_size c Hc) in Hlt.
  destruct (exists_last (l:=_list c)) as (l & [a p] & Hl).
  { intros Hnil. rewrite Hnil in Hlt. simpl in Hlt. lia. }
  pose proof (evict_step_back c l a p Hc Hl) as Hstep.
  pose proof (evict_step_consistent c l a p Hc Hl) as Hc'.
  eexists l, a, p, _. split_and!; try done.
  - unfold back_key. by rewrite Hl, last_snoc.
  - apply has_true_iff. exists (Some a). apply (consistent_index c Hc).
    exists a, (data p). split; [done|]. rewrite Hl, elem_of_app. right.
    destruct p. left.
  - apply has_false_iff. cbn [_map]. apply lookup_delete_eq.
  - intros k Hne. cbn [_map]. by apply lookup_delete_ne.
  - intros k Hne. unfold stored. cbn [_map].
    rewrite lookup_delete_ne by done.
    destruct (_map c !! k) as [e|] eqn:Hk; [|done].
    apply (consistent_index c Hc) in Hk as (b & v & -> & Hin).
    unfold deref, List_get. cbn [_list].
    assert (Hin' : (b, mkPair k v) ∈ l).
    { rewrite Hl in Hin. apply elem_of_app in Hin as [Hin|Hin]; [done|].
      apply list_elem_of_singleton in Hin. injection Hin as -> <-. done. }
    pose proof (consistent_addr c Hc) as Hnd.
    assert (Hndl : NoDup (l.*1)) by exact (consistent_addr _ Hc').
    rewrite (proj2 (node_at_Some l b (mkPair k v) Hndl)) by done.
    rewrite (proj2 (node_at_Some _ b (mkPair k v) Hnd)); [done|].
    rewrite Hl. apply elem_of_app. by left.
  - unfold evict at 1. cbn [evict_loop].
    unfold bind at 1, map_size. unfold bind at 1, read_capacity.
    rewrite (consistent_size c Hc). apply N.ltb_lt in Hlt. rewrite Hlt.
    unfold bind. rewrite Hstep, Hl, length_app. cbn [length].
    unfold evict. cbn [_list]. by rewrite Nat.add_1_r.
Qed.

(** ** Overwriting a key *)

Lemma without_Forall k (l : List) : Forall (λ n, key n.2 ≠ k) (without k l).
Proof.
  apply Forall_forall. intros x Hx.
  by apply list_elem_of_filter in Hx as [? _].
Qed.

Lemma without_take_without k n (l : List) :
  without k (take n (without k l)) = take n (without k l).
Proof. apply filter_Forall_id, Forall_take, without_Forall. Qed.

Lemma length_without_present c k :
  consistent c → is_Some (_map c !! k) →
  length (_list c) = S (length (without k (_list c))).
Proof.
  intros Hc [e Hk].
  destruct (consistent_lookup_Some c k e Hc Hk)
    as (a & v & l1 & l2 & -> & Hl & H1 & _ & _).
  destruct (without_present c k a Hc Hk) as [<- _].
  rewrite Hl, unlink_middle by done. rewrite !length_app. simpl. lia.
Qed.

(** C4, as amended. On a well-formed cache with capacity at least 1,
    [insert(k, v1)] followed by [insert(k, v2)] leaves [get_size()] equal to
    its value after the first insert; that value is the one before the first
    insert when [k] was present or the cache was full, and one more
    otherwise.  Afterwards [k] is at the front and [get(k)] returns a
    reference to [v2]. *)
Theorem overwrite c k v1 v2 :
  wf c → 1 <= capacity c →
  ∃ r1 c1 r2 c2 r3 c3 s0 s1,
    insert k v1 c = Ret (r1, c1) ∧ insert k v2 c1 = Ret (r2, c2) ∧
    get_size c = Ret (s0, c) ∧ get_size c1 = Ret (s1, c1) ∧
    get_size c2 = Ret (s1, c2) ∧
    (is_Some (_map c !! k) ∨ s0 = capacity c → s1 = s0) ∧
    (_map c !! k = None → s0 < capacity c → s1 = s0 + 1) ∧
    front_key c2 = Some k ∧
    get k c2 = Ret (r3, c3) ∧ deref c3 r3 = Some v2 ∧ front_key c3 = Some k.
Proof.
  intros [Hc Hwithin] Hpos.
  destruct (insert_spec c k v1 Hc) as (c1 & Hrun1 & Hc1 & Hl1 & Hcap1).
  destruct (insert_spec c1 k v2 Hc1) as (c2 & Hrun2 & Hc2 & Hl2 & Hcap2).
  destruct (N.to_nat (capacity c)) as [|n] eqn:Hn; [lia|].
  cbn [take] in Hl1.
  set (a2 := fresh_addr (_list c1)) in *.
  rewrite Hcap1, Hn, Hl1 in Hl2. cbn [take] in Hl2.
  unfold without at 1 in Hl2. rewrite filter_cons_False in Hl2 by (simpl; tauto).
  fold (without k (take n (without k (_list c)))) in Hl2.
  rewrite without_take_without in Hl2.
  set (W := without k (_list c)) in *.
  pose proof (get_front c2 a2 k v2 _ Hc2 Hl2) as Hget.
  pose proof (consistent_size c Hc) as Hs0.
  pose proof (consistent_size c1 Hc1) as Hs1.
  pose proof (consistent_size c2 Hc2) as Hs2.
  assert (Hlen1 : length (_list c1) = S (Nat.min n (length W))).
  { rewrite Hl1. simpl. by rewrite length_take. }
  assert (Hlen2 : length (_list c2) = length (_list c1)).
  { rewrite Hl2, Hl1. simpl. rewrite !length_take. lia. }
  unfold within_capacity in Hwithin.
  eexists _, c1, _, c2, _, _, _, _.
  split; [exact Hrun1|]. split; [exact Hrun2|].
  split; [reflexivity|]. split; [reflexivity|].
  split; [unfold get_size, map_size; by rewrite Hs2, Hlen2, <- Hs1|].
  split; [|split; [|split; [|split; [exact Hget|split]]]].
  - rewrite Hs1, Hlen1, Hs0. intros [Hk| Hfull].
    + pose proof (length_without_present c k Hc Hk). fold W in H0. lia.
    + destruct (_map c !! k) as [e|] eqn:Hk.
      * pose proof (length_without_present c k Hc (mk_is_Some _ _ Hk)).
        fold W in H0. lia.
      * pose proof (without_absent c k Hc Hk) as HW. fold W in HW.
        rewrite HW. lia.
  - intros Hk Hlt. rewrite Hs1, Hlen1.
    pose proof (without_absent c k Hc Hk) as HW. fold W in HW.
    rewrite HW. rewrite Hs0 in Hlt. lia.
  - unfold front_key. by rewrite Hl2.
  - unfold deref, touched, List_get. cbn [_list node_at].
    by rewrite decide_True.
  - done.
Qed.

(** ** set_capacity *)

(** C6. On a consistent cache: when the current capacity is positive,
    [set_capacity(n)] sets the capacity to [n] and drops nodes from the back
    until at most [n] remain, so [get_size()] becomes the minimum of [n] and
    the old size; when the current capacity is zero it changes nothing.  In
    particular, from the two entries [B] (front) and [A] (back),
    [set_capacity(1)] leaves size 1 with [B] present and [A] absent. *)
Theorem set_capacity_cases c n :
  consistent c →
  (0 < capacity c →
   ∃ c', set_capacity n c = Ret (tt, c') ∧
         get_capacity c' = Ret (n, c') ∧
         _list c' = take (N.to_nat n) (_list c) ∧
         get_size c' = Ret (N.min n (N.of_nat (size (_map c))), c') ∧
         consistent c') ∧
  (capacity c = 0 → set_capacity n c = Ret (tt, c)) ∧
  (∀ a b A B va vb,
     0 < capacity c → _list c = [(b, mkPair B vb); (a, mkPair A va)] →
     ∃ c', set_capacity 1 c = Ret (tt, c') ∧
           get_size c' = Ret (1, c') ∧
           has B c' = Ret (true, c') ∧ has A c' = Ret (false, c')).
Proof.
  intros Hc. split_and!.
  - intros Hpos.
    destruct (set_capacity_spec c n Hc Hpos) as (c' & Hrun & Hc' & Hl & Hcap).
    exists c'. split_and!; try done.
    + unfold get_capacity, read_capacity. by rewrite Hcap.
    + unfold get_size, map_size.
      rewrite (consistent_size c' Hc'), (consistent_size c Hc), Hl, length_take.
      do 2 f_equal. lia.
  - intros Hzero. rewrite set_capacity_unfold, Hzero. done.
  - intros a b A B va vb Hpos Hl.
    destruct (set_capacity_spec c 1 Hc Hpos) as (c' & Hrun & Hc' & Hl' & Hcap).
    rewrite Hl in Hl'. change (N.to_nat 1) with 1%nat in Hl'. cbn [take] in Hl'.
    exists c'. split_and!; try done.
    + unfold get_size, map_size. by rewrite (consistent_size c' Hc'), Hl'.
    + apply has_true_iff. rewrite (consistent_front c' b B vb [] Hc' Hl'). eauto.
    + apply has_false_iff, eq_None_not_Some. intros [e He].
      apply (consistent_index c' Hc') in He as (a' & v' & _ & Hin).
      rewrite Hl' in Hin. apply list_elem_of_singleton in Hin.
      injection Hin as Ha HA Hv. subst a' A v'.
      assert (b = a).
      { apply (consistent_key_addr c b a B vb va Hc); rewrite Hl.
        - left.
        - right. left. }
      subst b. pose proof (consistent_addr c Hc) as Hnd.
      rewrite Hl in Hnd. cbn in Hnd.
      apply NoDup_cons in Hnd as [Hnot _]. apply Hnot. left.
Qed.

(** ** get, getptr, clear *)

(** C7. On a consistent cache, [get(k)] hits [CRASH_COND] exactly when [k]
    is absent, and then nothing after it runs; when [k] is present, [get(k)]
    returns, moves the node of [k] to the front leaving the other nodes in
    order and the index and capacity as they were, and the reference it
    returns reads the value stored for [k]. *)
Theorem get_cases c k :
  consistent c →
  (get k c = Crash ↔ has k c = Ret (false, c)) ∧
  (has k c = Ret (false, c) → ∀ ops, run (OpGet k :: ops) c = Crash) ∧
  (has k c = Ret (true, c) →
   ∃ a v l1 l2 c',
     _list c = l1 ++ (a, mkPair k v) :: l2 ∧ stored c k = Some v ∧
     get k c = Ret (Some a, c') ∧
     _list c' = (a, mkPair k v) :: l1 ++ l2 ∧
     _map c' = _map c ∧ capacity c' = capacity c ∧
     deref c' (Some a) = Some v ∧ consistent c').
Proof.
  intros Hc. split_and!.
  - rewrite has_false_iff. split; [|apply get_absent].
    destruct (_map c !! k) as [e|] eqn:Hk; [|done].
    destruct (get_present c k e Hc Hk) as (a & v & l1 & l2 & _ & _ & _ & ->).
    done.
  - intros Hk%has_false_iff ops. cbn [run run_op].
    unfold forget, bind. by rewrite get_absent.
  - intros [e Hk]%has_true_iff.
    destruct (get_present c k e Hc Hk)
      as (a & v & l1 & l2 & -> & Hl & H1 & Hrun).
    exists a, v, l1, l2, (touched a (mkPair k v) l1 l2 c).
    split_and!; try done.
    + unfold stored, deref, List_get. by rewrite Hk, Hl, node_at_middle.
    + unfold deref, touched, List_get. cbn [_list node_at].
      by rewrite decide_True.
    + by apply touched_consistent.
Qed.

(** C8. On a consistent cache, [getptr(k)] never fails: when [k] is absent
    it returns the null pointer and the cache is unchanged; when [k] is
    present it does what [get(k)] does, moving the node of [k] to the front
    and returning a pointer that reads the value stored for [k]. *)
Theorem getptr_cases c k :
  consistent c →
  (has k c = Ret (false, c) → getptr k c = Ret (nullptr, c)) ∧
  (has k c = Ret (true, c) →
   ∃ a v l1 l2 c',
     _list c = l1 ++ (a, mkPair k v) :: l2 ∧ stored c k = Some v ∧
     getptr k c = Ret (Some a, c') ∧ get k c = Ret (Some a, c') ∧
     _list c' = (a, mkPair k v) :: l1 ++ l2 ∧
     _map c' = _map c ∧ capacity c' = capacity c ∧
     deref c' (Some a) = Some v) ∧
  (∃ r c', getptr k c = Ret (r, c')).
Proof.
  intros Hc.
  assert (Hhit : has k c = Ret (true, c) →
   ∃ a v l1 l2 c',
     _list c = l1 ++ (a, mkPair k v) :: l2 ∧ stored c k = Some v ∧
     getptr k c = Ret (Some a, c') ∧ get k c = Ret (Some a, c') ∧
     _list c' = (a, mkPair k v) :: l1 ++ l2 ∧
     _map c' = _map c ∧ capacity c' = capacity c ∧
     deref c' (Some a) = Some v).
  { intros [e Hk]%has_true_iff.
    destruct (get_present c k e Hc Hk)
      as (a & v & l1 & l2 & -> & Hl & H1 & Hrun).
    exists a, v, l1, l2, (touched a (mkPair k v) l1 l2 c).
    rewrite (getptr_present c k _ Hk). split_and!; try done.
    + unfold stored, deref, List_get. by rewrite Hk, Hl, node_at_middle.
    + unfold deref, touched, List_get. cbn [_list node_at].
      by rewrite decide_True. }
  split_and!; [|exact Hhit|].
  - intros Hk%has_false_iff. by apply getptr_absent.
  - destruct (_map c !! k) as [e|] eqn:Hk.
    + destruct Hhit as (a & v & l1 & l2 & c' & _ & _ & Hrun & _).
      { apply has_true_iff. rewrite Hk. eauto. }
      eauto.
    + exists nullptr, c. by apply getptr_absent.
Qed.

(** C9. In every state, [clear()] returns a cache with [get_size()] zero,
    [has(k)] false for every key and the capacity it had before. *)
Theorem clear_empties c :
  ∃ c', clear c = Ret (tt, c') ∧
        get_size c' = Ret (0, c') ∧
        (∀ k, has k c' = Ret (false, c')) ∧
        (∀ n, get_capacity c = Ret (n, c) → get_capacity c' = Ret (n, c')) ∧
        get_capacity c' = Ret (capacity c, c').
Proof.
  eexists. rewrite clear_unfold. split_and!; [done|done| |..|done].
  - intros k. apply has_false_iff. cbn [_map]. apply lookup_empty.
  - unfold get_capacity, read_capacity. by intros n [= <-].
Qed.

(** ** Capacity zero *)

Lemma empty_zero_lookup c k : empty_zero c → _map c !! k = None.
Proof.
  intros (_ & _ & Hsize). apply map_size_empty_inv in Hsize.
  rewrite Hsize. apply lookup_empty.
Qed.

Lemma empty_zero_insert c k v :
  empty_zero c →
  ∃ c', insert k v c = Ret (Some (fresh_addr (_list c)), c') ∧ empty_zero c'.
Proof.
  intros (Hc & Hcap & Hsize).
  destruct (insert_spec c k v Hc) as (c' & Hrun & Hc' & Hl & Hcap').
  exists c'. split; [done|]. split_and!; [done|congruence|].
  rewrite (consistent_size c' Hc'), Hl, Hcap. done.
Qed.

Lemma empty_zero_run_op o c c' :
  empty_zero c → run_op o c = Ret (tt, c') → empty_zero c'.
Proof.
  intros Hz. pose proof Hz as (Hc & Hcap & Hsize).
  destruct o as [k v|k|k|k| |n]; cbn [run_op]; unfold forget, bind, ret.
  - destruct (empty_zero_insert c k v Hz) as (c1 & -> & Hz1). by intros [= <-].
  - by rewrite (get_absent c k (empty_zero_lookup c k Hz)).
  - rewrite (getptr_absent c k (empty_zero_lookup c k Hz)). by intros [= <-].
  - rewrite has_unfold. by intros [= <-].
  - rewrite clear_unfold. intros [= <-]. split_and!; [|done|done].
    apply empty_consistent.
  - rewrite set_capacity_unfold, Hcap. by intros [= <-].
Qed.

Lemma empty_zero_run ops c c' :
  empty_zero c → run ops c = Ret (tt, c') → empty_zero c'.
Proof.
  revert c. induction ops as [|o ops IH]; intros c Hz; cbn [run].
  - unfold ret. by intros [= <-].
  - unfold bind. destruct (run_op o c) as [[[] c1]| | |] eqn:Hop; try done.
    apply IH. by apply (empty_zero_run_op o c).
Qed.

(** C10. A consistent cache with capacity zero and size zero stays so under
    every public operation that returns: [insert(k, v)] returns with size zero
    and [has(k)] false (the pointer it returns then leads to no node),
    [set_capacity(n)] changes nothing for any [n],
    [getptr] and [has] report absence and change nothing, [clear] leaves it
    empty, and [get] never returns (it stops at [CRASH_COND], no key being
    present); hence the same holds after any sequence of operations. *)
Theorem zero_capacity_stays_empty c :
  consistent c → get_capacity c = Ret (0, c) → get_size c = Ret (0, c) →
  (∀ k v, ∃ r c',
     insert k v c = Ret (r, c') ∧ get_size c' = Ret (0, c') ∧
     has k c' = Ret (false, c') ∧ get_capacity c' = Ret (0, c') ∧
     deref c' r = None) ∧
  (∀ n, set_capacity n c = Ret (tt, c)) ∧
  (∀ k, get k c = Crash) ∧
  (∀ k, getptr k c = Ret (nullptr, c)) ∧
  (∀ k, has k c = Ret (false, c)) ∧
  (∃ c', clear c = Ret (tt, c') ∧ get_size c' = Ret (0, c') ∧
         get_capacity c' = Ret (0, c')) ∧
  (∀ ops c', run ops c = Ret (tt, c') →
     get_capacity c' = Ret (0, c') ∧ get_size c' = Ret (0, c')).
Proof.
  intros Hc Hcap Hsize.
  assert (Hz : empty_zero c).
  { split; [done|]. unfold get_capacity, read_capacity in Hcap.
    unfold get_size, map_size in Hsize.
    injection Hcap as Hcap. injection Hsize as Hsize. split; [done|lia]. }
  assert (Hobs : ∀ c', empty_zero c' →
            get_capacity c' = Ret (0, c') ∧ get_size c' = Ret (0, c')).
  { intros c' (_ & Hcap' & Hsize').
    unfold get_capacity, read_capacity, get_size, map_size.
    by rewrite Hcap', Hsize'. }
  split_and!.
  - intros k v. destruct (empty_zero_insert c k v Hz) as (c' & Hrun & Hz').
    destruct (Hobs c' Hz') as [Hcap' Hsize'].
    eexists _, c'. split_and!; try done.
    + apply has_false_iff. by apply empty_zero_lookup.
    + destruct Hz' as (Hc' & _ & Hsize0).
      rewrite (consistent_size c' Hc') in Hsize0.
      apply nil_length_inv in Hsize0. unfold deref, List_get.
      by rewrite Hsize0.
  - intros n. destruct Hz as (_ & Hcap0 & _).
    by rewrite set_capacity_unfold, Hcap0.
  - intros k. by apply get_absent, empty_zero_lookup.
  - intros k. by apply getptr_absent, empty_zero_lookup.
  - intros k. by apply has_false_iff, empty_zero_lookup.
  - eexists. rewrite clear_unfold. split; [done|].
    destruct Hz as (_ & Hcap0 & _).
    unfold get_capacity, read_capacity, get_size, map_size.
    cbn [_map capacity]. by rewrite Hcap0, map_size_empty.
  - intros ops c' Hrun. apply Hobs. by apply (empty_zero_run ops c).
Qed.

(** ** The refresh scenario *)

(** [get] of a present key, with the resulting list written with [without]. *)
Lemma get_present_without c k :
  consistent c → is_Some (_map c !! k) →
  ∃ a v c',
    (a, mkPair k v) ∈ _list c ∧ get k c = Ret (Some a, c') ∧
    _list c' = (a, mkPair k v) :: without k (_list c) ∧
    capacity c' = capacity c ∧ consistent c'.
Proof.
  intros Hc [e Hk].
  destruct (get_present c k e Hc Hk) as (a & v & l1 & l2 & -> & Hl & H1 & Hrun).
  destruct (without_present c k a Hc Hk) as [Hun _].
  exists a, v, (touched a (mkPair k v) l1 l2 c). split_and!; try done.
  - rewrite Hl, elem_of_app. right. left.
  - unfold touched. cbn [_list]. rewrite <- Hun, Hl. by rewrite unlink_middle.
  - by apply touched_consistent.
Qed.

Lemma has_entries c k :
  consistent c → has k c = Ret (bool_decide (k ∈ key <$> entries c), c).
Proof.
  intros Hc. rewrite has_unfold. do 2 f_equal.
  apply bool_decide_ext, (consistent_has_key c k Hc).
Qed.

(** C5. From the empty cache of capacity 2, for distinct keys [A], [B], [C]:
    [insert(A, v1); insert(B, v2); get(A); insert(C, v3)] all return and leave
    [has(B)] false, [has(A)] and [has(C)] true and [get_size()] equal to 2;
    the [get(A)] moved [A] ahead of [B], so the third insert evicts [B]. *)
Theorem refresh_saves_from_eviction (A B C : TKey) (v1 v2 v3 : TData) :
  A ≠ B → A ≠ C → B ≠ C →
  ∃ r1 c1 r2 c2 r3 c3 r4 c4,
    insert A v1 (LRUCache_int 2) = Ret (r1, c1) ∧
    insert B v2 c1 = Ret (r2, c2) ∧
    get A c2 = Ret (r3, c3) ∧
    insert C v3 c3 = Ret (r4, c4) ∧
    has B c4 = Ret (false, c4) ∧
    has A c4 = Ret (true, c4) ∧
    has C c4 = Ret (true, c4) ∧
    get_size c4 = Ret (2, c4) ∧
    entries c3 = [mkPair A v1; mkPair B v2] ∧
    entries c4 = [mkPair C v3; mkPair A v1].
Proof.
  intros HAB HAC HBC.
  pose proof (empty_consistent (Z.to_N (2 mod 2 ^ size_t_bits))) as Hc0.
  fold (LRUCache_int 2) in Hc0.
  destruct (insert_spec _ A v1 Hc0) as (c1 & Hrun1 & Hc1 & Hl1 & Hcap1).
  change (capacity (LRUCache_int 2)) with 2 in Hl1, Hcap1.
  change (N.to_nat 2) with 2%nat in Hl1.
  change (_list (LRUCache_int 2)) with (@nil (addr * Pair)) in Hl1.
  unfold without in Hl1. rewrite filter_nil in Hl1. cbn [take] in Hl1.
  destruct (insert_spec c1 B v2 Hc1) as (c2 & Hrun2 & Hc2 & Hl2 & Hcap2).
  set (a2 := fresh_addr (_list c1)) in *.
  rewrite Hcap1, Hl1 in Hl2. change (N.to_nat 2) with 2%nat in Hl2.
  unfold without in Hl2. rewrite filter_cons_True in Hl2 by done.
  rewrite filter_nil in Hl2. cbn [take] in Hl2.
  set (a1 := fresh_addr []) in *.
  assert (HA2 : is_Some (_map c2 !! A)).
  { exists (Some a1). apply (consistent_index c2 Hc2). exists a1, v1.
    split; [done|]. rewrite Hl2. right. left. }
  destruct (get_present_without c2 A Hc2 HA2)
    as (a & v & c3 & Hin & Hrun3 & Hl3 & Hcap3 & Hc3).
  rewrite Hl2 in Hin.
  apply elem_of_cons in Hin as [Heq|Hin]; [by injection Heq as _ ? _|].
  apply list_elem_of_singleton in Hin. injection Hin as -> ->.
  rewrite Hl2 in Hl3. unfold without in Hl3.
  rewrite filter_cons_True in Hl3 by (simpl; congruence).
  rewrite filter_cons_False in Hl3 by (simpl; tauto).
  rewrite filter_nil in Hl3.
  destruct (insert_spec c3 C v3 Hc3) as (c4 & Hrun4 & Hc4 & Hl4 & Hcap4).
  set (a4 := fresh_addr (_list c3)) in *.
  rewrite Hcap3, Hcap2, Hcap1, Hl3 in Hl4.
  change (N.to_nat 2) with 2%nat in Hl4.
  unfold without in Hl4.
  rewrite filter_cons_True in Hl4 by done.
  rewrite filter_cons_True in Hl4 by done.
  rewrite filter_nil in Hl4. cbn [take] in Hl4.
  assert (He4 : entries c4 = [mkPair C v3; mkPair A v1]).
  { unfold entries. by rewrite Hl4. }
  eexists _, c1, _, c2, _, c3, _, c4.
  split; [exact Hrun1|]. split; [exact Hrun2|]. split; [exact Hrun3|].
  split; [exact Hrun4|]. split_and!.
  - rewrite (has_entries c4 B Hc4), He4. cbn [fmap list_fmap key].
    rewrite bool_decide_eq_false_2; [done|].
    rewrite !elem_of_cons, elem_of_nil. intros [?|[?|[]]]; congruence.
  - rewrite (has_entries c4 A Hc4), He4. cbn [fmap list_fmap key].
    rewrite bool_decide_eq_true_2; [done|]. right. left.
  - rewrite (has_entries c4 C Hc4), He4. cbn [fmap list_fmap key].
    rewrite bool_decide_eq_true_2; [done|]. left.
  - unfold get_size, map_size. by rewrite (consistent_size c4 Hc4), Hl4.
  - unfold entries. by rewrite Hl3.
  - exact He4.
Qed.

(** * Further properties of the member functions *)

(** ** The index and the list along operation sequences *)

Lemma without_entries k (l : List) :
  (without k l).*2 = filter (λ p, key p ≠ k) (l.*2).
Proof.
  unfold without. induction l as [|[a p] l IH]; [done|].
  rewrite fmap_cons. cbn [snd].
  destruct (decide (key p ≠ k)) as [Hk|Hk].
  - rewrite !filter_cons_True by done. rewrite fmap_cons. cbn [snd].
    by rewrite IH.
  - by rewrite !filter_cons_False by done.
Qed.

Lemma consistent_stored_iff c k v :
  consistent c → (stored c k = Some v ↔ mkPair k v ∈ entries c).
Proof.
  intros Hc. pose proof (consistent_addr c Hc) as Hnd.
  unfold stored, deref, entries. split.
  - destruct (_map c !! k) as [e|] eqn:Hk; [|done].
    apply (consistent_index c Hc) in Hk as (a & v' & -> & Hin).
    cbn [List_get]. rewrite (proj2 (node_at_Some _ a _ Hnd) Hin).
    intros [= <-]. apply list_elem_of_fmap. by exists (a, mkPair k v').
  - intros Hin. apply list_elem_of_fmap in Hin as ([a p] & Heq & Hin).
    simpl in Heq. subst p.
    assert (Hk : _map c !! k = Some (Some a)).
    { apply (consistent_index c Hc). eauto. }
    rewrite Hk. cbn [List_get].
    by rewrite (proj2 (node_at_Some _ a _ Hnd) Hin).
Qed.

Lemma consistent_keys_NoDup c : consistent c → NoDup (key <$> entries c).
Proof.
  intros Hc. unfold entries. rewrite <- list_fmap_compose.
  apply NoDup_fmap_2_strong.
  - intros [a1 [k1 v1]] [a2 [k2 v2]] H1 H2 Heq. simpl in Heq. subst k2.
    assert (a1 = a2) as -> by exact (consistent_key_addr c _ _ _ _ _ Hc H1 H2).
    pose proof (consistent_addr c Hc) as Hnd.
    apply (node_at_Some _ _ _ Hnd) in H1, H2. congruence.
  - exact (NoDup_fmap_1 fst _ (consistent_addr c Hc)).
Qed.

(** X1. In every state a sequence of operations reaches from a constructor,
    the keys along the list are pairwise distinct, [has(k)] answers true
    exactly for the keys of the list, the value stored for a key is the data
    of its entry, and every element the index holds is a node of the list
    carrying that key (none is null or dangling). *)
Theorem reachable_bijection c0 ops c :
  constructed c0 → run ops c0 = Ret (tt, c) →
  NoDup (key <$> entries c) ∧
  (∀ k, has k c = Ret (true, c) ↔ k ∈ key <$> entries c) ∧
  (∀ k v, stored c k = Some v ↔ mkPair k v ∈ entries c) ∧
  (∀ k e, _map c !! k = Some e →
          ∃ v, List_get e (_list c) = Some (mkPair k v)).
Proof.
  intros Hc0 Hrun.
  destruct (run_wf ops c0 c (constructed_wf c0 Hc0) Hrun) as [Hc _].
  split_and!.
  - by apply consistent_keys_NoDup.
  - intros k. rewrite has_true_iff. by apply consistent_has_key.
  - intros k v. by apply consistent_stored_iff.
  - intros k e Hk. apply (consistent_index c Hc) in Hk as (a & v & -> & Hin).
    exists v. cbn [List_get].
    by apply (node_at_Some _ _ _ (consistent_addr c Hc)).
Qed.

(** ** insert and what it does to the entries *)

Lemma insert_entries c k v :
  consistent c →
  ∃ c', insert k v c = Ret (Some (fresh_addr (_list c)), c') ∧
        consistent c' ∧ capacity c' = capacity c ∧
        entries c' =
          take (N.to_nat (capacity c))
            (mkPair k v :: filter (λ p, key p ≠ k) (entries c)).
Proof.
  intros Hc. destruct (insert_spec c k v Hc) as (c' & Hrun & Hc' & Hl & Hcap).
  exists c'. split_and!; try done.
  unfold entries. by rewrite Hl, fmap_take, fmap_cons, without_entries.
Qed.

(** X2. On a consistent cache with capacity at least 1, [insert(k, v)]
    followed by a lookup finds [v]: the pointer [insert] returns reads [v],
    [has(k)] is true, and [get(k)] returns a reference reading [v] without
    changing the entries. *)
Theorem insert_then_lookup c k v :
  consistent c → 1 <= capacity c →
  ∃ r c',
    insert k v c = Ret (r, c') ∧ deref c' r = Some v ∧
    stored c' k = Some v ∧ has k c' = Ret (true, c') ∧
    ∃ r' c'', get k c' = Ret (r', c'') ∧ deref c'' r' = Some v ∧
              entries c'' = entries c'.
Proof.
  intros Hc Hpos.
  destruct (insert_spec c k v Hc) as (c' & Hrun & Hc' & Hl & Hcap).
  destruct (N.to_nat (capacity c)) as [|n] eqn:Hn; [lia|]. cbn [take] in Hl.
  set (a := fresh_addr (_list c)) in *.
  eexists _, c'. split; [exact Hrun|]. split_and!.
  - unfold deref, List_get. rewrite Hl. cbn [node_at]. by rewrite decide_True.
  - apply (consistent_stored_iff c' k v Hc'). unfold entries. rewrite Hl. left.
  - apply has_true_iff. rewrite (consistent_front c' a k v _ Hc' Hl). eauto.
  - eexists _, _. split; [exact (get_front c' a k v _ Hc' Hl)|]. split.
    + unfold deref, touched, List_get. cbn [_list node_at].
      by rewrite decide_True.
    + unfold entries, touched. cbn [_list]. by rewrite Hl.
Qed.

(** X3. When [insert(k, v)] has room (the key is already present, or the
    cache holds fewer keys than its capacity), nothing is evicted: the entries
    become the new entry followed by the other entries in their old order, and
    the value stored for every other key is unchanged. *)
Theorem insert_keeps_others c k v :
  wf c →
  has k c = Ret (true, c) ∨ N.of_nat (size (_map c)) < capacity c →
  ∃ r c',
    insert k v c = Ret (r, c') ∧
    entries c' = mkPair k v :: filter (λ p, key p ≠ k) (entries c) ∧
    (∀ k', k' ≠ k → stored c' k' = stored c k').
Proof.
  intros [Hc Hwithin] Hroom.
  destruct (insert_entries c k v Hc) as (c' & Hrun & Hc' & _ & He).
  unfold within_capacity in Hwithin.
  pose proof (consistent_size c Hc) as Hsize. rewrite Hsize in Hwithin.
  assert (He' : entries c' =
            mkPair k v :: filter (λ p, key p ≠ k) (entries c)).
  { rewrite He. apply take_ge. unfold entries.
    rewrite <- without_entries. cbn [length]. rewrite length_fmap.
    destruct Hroom as [His%has_true_iff|Hlt].
    - pose proof (length_without_present c k Hc His). lia.
    - pose proof (length_filter (λ n, key n.2 ≠ k) (_list c)) as Hle.
      fold (without k (_list c)) in Hle. rewrite Hsize in Hlt. lia. }
  eexists _, c'. split; [exact Hrun|]. split; [exact He'|].
  intros k' Hne. apply option_eq. intros v'.
  rewrite (consistent_stored_iff c' k' v' Hc'), He'.
  rewrite (consistent_stored_iff c k' v' Hc).
  rewrite elem_of_cons, list_elem_of_filter. cbn [key]. split.
  - intros [[= ? _]|[_ Hin]]; [congruence|done].
  - intros Hin. right. by split.
Qed.

(** X4. When [insert(k, v)] finds the cache full and [k] absent (capacity at
    least 1), exactly the least recently used entry makes room: the entries
    become the new entry followed by all old entries but the last, the key of
    that last entry is gone, every other key keeps its value, and the size
    stays at the capacity. *)
Theorem insert_evicts_lru c k v :
  wf c → 1 <= capacity c →
  has k c = Ret (false, c) → N.of_nat (size (_map c)) = capacity c →
  ∃ r c' es p,
    entries c = es ++ [p] ∧ back_key c = Some (key p) ∧
    insert k v c = Ret (r, c') ∧
    entries c' = mkPair k v :: es ∧
    has (key p) c' = Ret (false, c') ∧
    (∀ k', k' ≠ k → k' ≠ key p → stored c' k' = stored c k') ∧
    get_size c' = Ret (capacity c, c').
Proof.
  intros [Hc _] Hpos Hk%has_false_iff Hfull.
  destruct (insert_entries c k v Hc) as (c' & Hrun & Hc' & _ & He).
  pose proof (consistent_size c Hc) as Hsize.
  assert (Hf : filter (λ p, key p ≠ k) (entries c) = entries c).
  { apply filter_Forall_id, Forall_forall. intros p Hin. unfold entries in Hin.
    apply list_elem_of_fmap in Hin as ([a p'] & -> & Hin).
    by apply (consistent_lookup_None c k Hc Hk a). }
  rewrite Hf in He.
  destruct (exists_last (l:=entries c)) as (es & p & Hes).
  { intros Hnil. unfold entries in Hnil. apply fmap_nil_inv in Hnil.
    rewrite Hnil in Hsize. simpl in Hsize. lia. }
  assert (Hlen : N.to_nat (capacity c) = S (length es)).
  { rewrite <- Hfull, Hsize, Nat2N.id.
    rewrite <- (length_fmap snd (_list c)). fold (entries c).
    rewrite Hes, length_app. simpl. lia. }
  assert (He' : entries c' = mkPair k v :: es).
  { rewrite He, Hlen, Hes. cbn [take]. by rewrite take_app_length. }
  pose proof (consistent_keys_NoDup c Hc) as Hnd.
  rewrite Hes, fmap_app in Hnd. cbn [fmap list_fmap] in Hnd.
  apply NoDup_app in Hnd as (_ & Hdisj & _).
  assert (Hpk : key p ≠ k).
  { intros <-. assert (His : is_Some (_map c !! key p)).
    { apply (consistent_has_key c (key p) Hc). rewrite Hes, fmap_app.
      apply elem_of_app. right. left. }
    rewrite Hk in His. by destruct His. }
  eexists _, c', es, p. split; [exact Hes|]. split_and!.
  - unfold back_key. pose proof (fmap_last snd (_list c)) as Hlast.
    fold (entries c) in Hlast. rewrite Hes, last_snoc in Hlast.
    destruct (last (_list c)) as [[a p']|]; [|done].
    cbn in Hlast. by injection Hlast as ->.
  - exact Hrun.
  - exact He'.
  - apply has_false_iff, eq_None_not_Some.
    rewrite (consistent_has_key c' (key p) Hc'), He'.
    rewrite fmap_cons, elem_of_cons. cbn [key].
    intros [?|Hin]; [done|]. apply (Hdisj (key p) Hin). left.
  - intros k' Hne Hnp. apply option_eq. intros v'.
    rewrite (consistent_stored_iff c' k' v' Hc'), He'.
    rewrite (consistent_stored_iff c k' v' Hc), Hes.
    rewrite elem_of_cons, elem_of_app, list_elem_of_singleton. split.
    + intros [[= ? _]|Hin]; [congruence|by left].
    + intros [Hin|<-]; [by right|]. by cbn in Hnp.
  - unfold get_size, map_size. rewrite (consistent_size c' Hc').
    rewrite <- (length_fmap snd (_list c')). fold (entries c').
    rewrite He'. cbn [length]. rewrite <- Hlen, N2Nat.id. done.
Qed.

(** ** The member functions against the list model *)

Lemma filter_Forall_nil {A} (P : A → Prop) `{∀ x, Decision (P x)}
    (l : list A) :
  Forall (λ x, ¬ P x) l → filter P l = [].
Proof.
  induction 1 as [|x l Hx _ IH]; [done|].
  by rewrite filter_cons_False.
Qed.

Lemma filter_key_unique (es : list Pair) p :
  NoDup (key <$> es) → p ∈ es → filter (λ q, key q = key p) es = [p].
Proof.
  induction es as [|q es IH]; intros Hnd Hin; [inversion Hin|].
  rewrite fmap_cons in Hnd. apply NoDup_cons in Hnd as [Hq Hnd].
  apply elem_of_cons in Hin as [->|Hin].
  - rewrite filter_cons_True by done. f_equal.
    apply filter_Forall_nil, Forall_forall. intros q' Hq' Heq.
    apply Hq. rewrite <- Heq. by apply list_elem_of_fmap_2.
  - rewrite filter_cons_False; [by apply IH|].
    intros Heq. apply Hq. rewrite Heq. by apply list_elem_of_fmap_2.
Qed.

Lemma model_touch_absent c k :
  consistent c → _map c !! k = None → model_touch k (entries c) = None.
Proof.
  intros Hc Hk. unfold model_touch. rewrite filter_Forall_nil; [done|].
  apply Forall_forall. intros p Hin. unfold entries in Hin.
  apply list_elem_of_fmap in Hin as ([a p'] & -> & Hin).
  by apply (consistent_lookup_None c k Hc Hk a).
Qed.

Lemma get_refines c k :
  consistent c → is_Some (_map c !! k) →
  ∃ r c', get k c = Ret (r, c') ∧ consistent c' ∧
          capacity c' = capacity c ∧
          model_touch k (entries c) = Some (entries c').
Proof.
  intros Hc Hk.
  destruct (get_present_without c k Hc Hk)
    as (a & v & c' & Hin & Hrun & Hl & Hcap & Hc').
  eexists _, c'. split_and!; try done.
  assert (Hin' : mkPair k v ∈ entries c).
  { unfold entries. apply list_elem_of_fmap. by exists (a, mkPair k v). }
  pose proof (filter_key_unique (entries c) (mkPair k v)
                (consistent_keys_NoDup c Hc) Hin') as Hf.
  cbn [key] in Hf. unfold model_touch. rewrite Hf.
  unfold entries at 2. by rewrite Hl, fmap_cons, without_entries.
Qed.

Lemma run_op_wf_ret o c c' : wf c → run_op o c = Ret (tt, c') → wf c'.
Proof.
  intros Hwf Hrun.
  destruct (run_op_wf o c Hwf) as [(c1 & Hrun1 & Hwf1)|(k & _ & _ & Hcrash)];
    congruence.
Qed.

Lemma run_op_refines o c :
  wf c →
  match model_op o (entries c, capacity c) with
  | Some (es, cap) =>
      ∃ c', run_op o c = Ret (tt, c') ∧ wf c' ∧
            entries c' = es ∧ capacity c' = cap
  | None => run_op o c = Crash
  end.
Proof.
  intros Hwf. pose proof Hwf as [Hc _].
  assert (Hret : ∀ c' es cap,
            run_op o c = Ret (tt, c') → entries c' = es → capacity c' = cap →
            ∃ c', run_op o c = Ret (tt, c') ∧ wf c' ∧
                  entries c' = es ∧ capacity c' = cap).
  { intros c' es cap Hrun He Hcap. exists c'. split_and!; try done.
    by apply (run_op_wf_ret o c). }
  destruct o as [k v|k|k|k| |n]; cbn [model_op run_op] in *.
  - destruct (insert_entries c k v Hc) as (c' & Hrun & _ & Hcap & He).
    apply (Hret c'); [|done|done]. unfold forget, bind, ret. by rewrite Hrun.
  - destruct (_map c !! k) as [e|] eqn:Hk.
    + destruct (get_refines c k Hc (mk_is_Some _ _ Hk))
        as (r & c' & Hrun & _ & Hcap & ->).
      apply (Hret c'); [|done|done]. unfold forget, bind, ret. by rewrite Hrun.
    + rewrite (model_touch_absent c k Hc Hk).
      unfold forget, bind. by rewrite (get_absent c k Hk).
  - destruct (_map c !! k) as [e|] eqn:Hk.
    + destruct (get_refines c k Hc (mk_is_Some _ _ Hk))
        as (r & c' & Hrun & _ & Hcap & ->).
      apply (Hret c'); [|done|done]. unfold forget, bind, ret.
      by rewrite (getptr_present c k e Hk), Hrun.
    + rewrite (model_touch_absent c k Hc Hk).
      apply (Hret c); [|done|done]. unfold forget, bind, ret.
      by rewrite (getptr_absent c k Hk).
  - apply (Hret c); [|done|done]. unfold forget, bind, ret.
    by rewrite has_unfold.
  - eapply Hret; [apply clear_unfold|done|done].
  - rewrite set_capacity_unfold in *.
    destruct (N.ltb_spec 0 (capacity c)) as [Hpos|Hzero].
    + destruct (evict_spec _ (resized_consistent n c Hc))
        as (c' & Hrun & _ & Hl & Hcap).
      apply (Hret c'); [done| |done].
      unfold entries. rewrite Hl. apply fmap_take.
    + by apply (Hret c).
Qed.

(** X5. From a well-formed cache, every sequence of operations does to the
    entries (in recency order) and to the capacity exactly what the list
    model says: it stops at [CRASH_COND] when the model has a [get] of a key
    without entry, and otherwise returns the cache whose entries and capacity
    are the model's. *)
Theorem run_refines ops c :
  wf c →
  match model_run ops (entries c, capacity c) with
  | Some (es, cap) =>
      ∃ c', run ops c = Ret (tt, c') ∧ entries c' = es ∧ capacity c' = cap
  | None => run ops c = Crash
  end.
Proof.
  revert c. induction ops as [|o ops IH]; intros c Hwf; cbn [model_run run].
  - by exists c.
  - pose proof (run_op_refines o c Hwf) as Hop.
    destruct (model_op o (entries c, capacity c)) as [[es cap]|].
    + destruct Hop as (c1 & Hrun1 & Hwf1 & <- & <-).
      unfold bind. rewrite Hrun1. by apply IH.
    + unfold bind. by rewrite Hop.
Qed.

(** ** has *)

Lemma run_app ops1 ops2 c :
  run (ops1 ++ ops2) c =
    match run ops1 c with
    | Ret (_, c1) => run ops2 c1
    | Crash => Crash
    | Undefined => Undefined
    | OutOfFuel => OutOfFuel
    end.
Proof.
  revert c. induction ops1 as [|o ops1 IH]; intros c; [done|].
  cbn [app run]. unfold bind.
  destruct (run_op o c) as [[[] c1]| | |]; [apply IH|done..].
Qed.

(** X6. [has] is a pure peek in every state, consistent or not: a call to
    [has(k)] placed anywhere in a sequence of operations does not change
    what the sequence does. *)
Theorem has_anywhere ops1 k ops2 c :
  run (ops1 ++ OpHas k :: ops2) c = run (ops1 ++ ops2) c.
Proof.
  rewrite !run_app. destruct (run ops1 c) as [[[] c1]| | |]; [|done..].
  cbn [run run_op]. unfold forget, bind, ret. by rewrite has_unfold.
Qed.

(** ** Reading changes only the order *)

(** X7. On a consistent cache, a [get(k)] of a present key changes nothing
    but the order: every key keeps its stored value, [get_size()] is the same,
    and a second [get(k)] or [getptr(k)] right after returns the same
    reference and leaves the cache as the first one left it. *)
Theorem get_changes_only_order c k :
  consistent c → has k c = Ret (true, c) →
  ∃ r c',
    get k c = Ret (r, c') ∧
    (∀ k', stored c' k' = stored c k') ∧
    (∀ n, get_size c = Ret (n, c) → get_size c' = Ret (n, c')) ∧
    get k c' = Ret (r, c') ∧ getptr k c' = Ret (r, c').
Proof.
  intros Hc [e Hk]%has_true_iff.
  destruct (get_present c k e Hc Hk) as (a & v & l1 & l2 & -> & Hl & _ & Hrun).
  pose proof (touched_consistent c a (mkPair k v) l1 l2 Hc Hl) as Hc'.
  set (c' := touched a (mkPair k v) l1 l2 c) in *.
  assert (Hagain : get k c' = Ret (Some a, c')).
  { by rewrite (get_front c' a k v (l1 ++ l2) Hc' eq_refl). }
  exists (Some a), c'. split_and!; try done.
  - intros k'. apply option_eq. intros v'.
    rewrite (consistent_stored_iff c' k' v' Hc').
    rewrite (consistent_stored_iff c k' v' Hc).
    unfold entries, c', touched. cbn [_list]. rewrite Hl.
    rewrite fmap_cons, !fmap_app, fmap_cons.
    rewrite elem_of_cons, !elem_of_app, elem_of_cons. tauto.
  - unfold get_size, map_size. by intros n [= <-].
  - rewrite <- Hagain. apply (getptr_present c' k (Some a)). exact Hk.
Qed.

(** ** set_capacity *)

(** X8. Shrinking is lossy: on a consistent cache with positive capacity,
    [set_capacity(n)] with [n] positive followed by [set_capacity(m)] leaves
    the first [min n m] entries and capacity [m]; raising the capacity again
    does not bring evicted entries back. *)
Theorem set_capacity_twice c n m :
  consistent c → 0 < capacity c → 0 < n →
  ∃ c1 c2,
    set_capacity n c = Ret (tt, c1) ∧ set_capacity m c1 = Ret (tt, c2) ∧
    entries c2 = take (N.to_nat (N.min n m)) (entries c) ∧
    get_capacity c2 = Ret (m, c2).
Proof.
  intros Hc Hpos Hn.
  destruct (set_capacity_spec c n Hc Hpos) as (c1 & Hrun1 & Hc1 & Hl1 & Hcap1).
  assert (Hpos1 : 0 < capacity c1) by (by rewrite Hcap1).
  destruct (set_capacity_spec c1 m Hc1 Hpos1)
    as (c2 & Hrun2 & Hc2 & Hl2 & Hcap2).
  exists c1, c2. split_and!; try done.
  - unfold entries. rewrite Hl2, Hl1, take_take, fmap_take.
    f_equal. lia.
  - unfold get_capacity, read_capacity. by rewrite Hcap2.
Qed.

(** X9. [set_capacity(0)] cannot be undone: on a consistent cache with
    positive capacity it empties the cache, and after it no sequence of
    operations (further [set_capacity] calls and inserts included) ever
    returns with a capacity or a size other than zero. *)
Theorem set_capacity_zero_is_final c :
  consistent c → 0 < capacity c →
  ∃ c1,
    set_capacity 0 c = Ret (tt, c1) ∧ entries c1 = [] ∧
    ∀ ops c2, run ops c1 = Ret (tt, c2) →
      get_capacity c2 = Ret (0, c2) ∧ get_size c2 = Ret (0, c2) ∧
      entries c2 = [].
Proof.
  intros Hc Hpos.
  destruct (set_capacity_spec c 0 Hc Hpos) as (c1 & Hrun & Hc1 & Hl1 & Hcap1).
  change (N.to_nat 0) with 0%nat in Hl1. rewrite take_0 in Hl1.
  assert (Hz : empty_zero c1).
  { split_and!; [done|done|]. by rewrite (consistent_size c1 Hc1), Hl1. }
  exists c1. split; [done|]. split; [unfold entries; by rewrite Hl1|].
  intros ops c2 Hrun2.
  destruct (empty_zero_run ops c1 c2 Hz Hrun2) as (Hc2 & Hcap2 & Hsize2).
  unfold get_capacity, read_capacity, get_size, map_size.
  rewrite Hcap2, Hsize2. split_and!; try done.
  rewrite (consistent_size c2 Hc2) in Hsize2.
  apply nil_length_inv in Hsize2. unfold entries. by rewrite Hsize2.
Qed.

(** ** The constructors *)

(** X10. [LRUCache(int p_capacity)] stores the argument converted to
    [size_t]: a non-negative argument is the capacity, while a negative one
    becomes 2^64 + p_capacity, a capacity of at least 2^64 - 2^31, not an
    empty or zero-capacity cache.  (With [size_t] of 64 bits.) *)
Theorem constructor_capacity (p_capacity : Z) :
  (- 2 ^ 31 <= p_capacity < 2 ^ 31)%Z →
  get_capacity (LRUCache_int p_capacity) =
    Ret (Z.to_N (if (p_capacity <? 0)%Z then 2 ^ 64 + p_capacity
                 else p_capacity), LRUCache_int p_capacity) ∧
  ((p_capacity < 0)%Z →
   2 ^ 64 - 2 ^ 31 <= capacity (LRUCache_int p_capacity)) ∧
  entries (LRUCache_int p_capacity) = [].
Proof.
  intros Hrange. unfold get_capacity, read_capacity, LRUCache_int, size_t_bits.
  cbn [capacity].
  assert (Hmod : (p_capacity mod 2 ^ 64)%Z =
            if (p_capacity <? 0)%Z then (2 ^ 64 + p_capacity)%Z
            else p_capacity).
  { destruct (Z.ltb_spec p_capacity 0).
    - symmetry. apply (Z.mod_unique_pos _ _ (-1)); lia.
    - apply Z.mod_small. lia. }
  rewrite Hmod. split_and!; [done| |done].
  intros Hneg. destruct (Z.ltb_spec p_capacity 0); lia.
Qed.

(** ** Filling a fresh cache *)

Lemma take_app_take {A} n (l1 l2 : list A) :
  take n (l1 ++ take n l2) = take n (l1 ++ l2).
Proof.
  rewrite !take_app, take_take. do 2 f_equal. lia.
Qed.

Lemma run_inserts ps c :
  wf c → NoDup (key <$> ps) →
  (∀ p, p ∈ ps → key p ∉ key <$> entries c) →
  ∃ c', run (inserts ps) c = Ret (tt, c') ∧ wf c' ∧
        capacity c' = capacity c ∧
        entries c' = take (N.to_nat (capacity c)) (reverse ps ++ entries c).
Proof.
  revert c. induction ps as [|p ps IH]; intros c Hwf Hnd Hfresh.
  - exists c. split_and!; try done. cbn [reverse app]. symmetry.
    apply take_ge. destruct Hwf as [Hc Hwithin].
    unfold within_capacity in Hwithin.
    rewrite (consistent_size c Hc) in Hwithin.
    unfold entries. rewrite length_fmap. lia.
  - rewrite fmap_cons in Hnd. apply NoDup_cons in Hnd as [Hp Hnd].
    pose proof Hwf as [Hc _].
    destruct (insert_entries c (key p) (data p) Hc)
      as (c1 & Hrun1 & Hc1 & Hcap1 & He1).
    assert (Hwf1 : wf c1).
    { apply (run_op_wf_ret (OpInsert (key p) (data p)) c c1 Hwf).
      cbn [run_op]. unfold forget, bind, ret. by rewrite Hrun1. }
    assert (Hf : filter (λ q, key q ≠ key p) (entries c) = entries c).
    { apply filter_Forall_id, Forall_forall. intros q Hq Heq.
      apply (Hfresh p); [left|]. rewrite <- Heq. by apply list_elem_of_fmap_2. }
    rewrite Hf in He1. destruct p as [k v]. cbn [key data] in *.
    destruct (IH c1 Hwf1 Hnd) as (c' & Hrun & Hwf' & Hcap' & He').
    { intros q Hq Hin. rewrite He1 in Hin.
      apply list_elem_of_fmap in Hin as (q' & Heq & Hin).
      apply elem_of_take in Hin as (i & Hin & _).
      apply list_elem_of_lookup_2 in Hin.
      apply elem_of_cons in Hin as [->|Hin].
      - apply Hp. cbn [key] in Heq. rewrite <- Heq.
        by apply list_elem_of_fmap_2.
      - apply (Hfresh q); [by right|]. rewrite Heq.
        by apply list_elem_of_fmap_2. }
    exists c'. split_and!.
    + cbn [inserts fmap list_fmap run run_op key data].
      unfold bind at 1. unfold forget, bind at 1. rewrite Hrun1.
      unfold ret at 1. exact Hrun.
    + done.
    + congruence.
    + rewrite He', He1, Hcap1, take_app_take, reverse_cons, <- app_assoc.
      done.
Qed.

(** X11. Inserting entries with pairwise distinct keys into a freshly
    constructed cache returns, and the cache then holds the most recently
    inserted ones, newest first, as many as the capacity admits. *)
Theorem fill_fresh_cache c0 ps :
  constructed c0 → NoDup (key <$> ps) →
  ∃ c, run (inserts ps) c0 = Ret (tt, c) ∧
       entries c = take (N.to_nat (capacity c0)) (reverse ps) ∧
       get_capacity c = Ret (capacity c0, c).
Proof.
  intros Hc0 Hnd.
  assert (He0 : entries c0 = []) by (by destruct Hc0).
  destruct (run_inserts ps c0 (constructed_wf c0 Hc0) Hnd)
    as (c & Hrun & _ & Hcap & He).
  { intros p _. rewrite He0. apply not_elem_of_nil. }
  exists c. split_and!; [done| |].
  - by rewrite He, He0, app_nil_r.
  - unfold get_capacity, read_capacity. by rewrite Hcap.
Qed.

(** ** What was used recently is not evicted *)

Lemma key_filter_elem_of (P : Pair → Prop) `{∀ x, Decision (P x)}
    (l : list Pair) k :
  k ∈ key <$> filter P l → k ∈ key <$> l.
Proof.
  intros (q & -> & Hq)%list_elem_of_fmap.
  apply list_elem_of_filter in Hq as [_ Hq]. by apply list_elem_of_fmap_2.
Qed.

Lemma key_filter_NoDup (P : Pair → Prop) `{∀ x, Decision (P x)}
    (l : list Pair) :
  NoDup (key <$> l) → NoDup (key <$> filter P l).
Proof.
  induction l as [|q l IH]; [done|].
  rewrite fmap_cons. intros [Hq Hnd]%NoDup_cons. rewrite filter_cons.
  case_decide; [|by apply IH].
  rewrite fmap_cons. apply NoDup_cons. split; [|by apply IH].
  intros Hin. by apply Hq, (key_filter_elem_of P).
Qed.

Lemma keys_within_length (l : list Pair) (ks : list TKey) :
  NoDup (key <$> l) → Forall (λ q, key q ∈ ks) l →
  (length l ≤ length ks)%nat.
Proof.
  intros Hnd Hall. rewrite <- (length_fmap key l).
  apply submseteq_length, NoDup_submseteq; [done|].
  intros k (q & -> & Hq)%list_elem_of_fmap.
  by apply (proj1 (Forall_forall _ _) Hall).
Qed.

Lemma filter_around (front back : list Pair) k v k' :
  k' ≠ k →
  filter (λ p, key p ≠ k') (front ++ mkPair k v :: back) =
    filter (λ p, key p ≠ k') front ++
    mkPair k v :: filter (λ p, key p ≠ k') back.
Proof.
  intros Hne. rewrite filter_app, filter_cons_True; [done|].
  cbn [key]. congruence.
Qed.

Lemma Forall_filter_keep {A} (P Q : A → Prop) `{∀ x, Decision (Q x)}
    (l : list A) :
  Forall P l → Forall P (filter Q l).
Proof.
  rewrite !Forall_forall. intros Hall x Hx.
  apply list_elem_of_filter in Hx as [_ Hx]. by apply Hall.
Qed.

Lemma behind_only_touch c k v ks k' es' :
  k' ∈ ks → k ∉ ks → behind_only k v ks c →
  model_touch k' (entries c) = Some es' →
  ∃ front back,
    es' = front ++ mkPair k v :: back ∧ Forall (λ q, key q ∈ ks) front.
Proof.
  intros Hk' Hk (front & back & He & Hall). unfold model_touch.
  destruct (filter (λ p, key p = k') (entries c)) as [|q qs] eqn:Hq; [done|].
  intros [= <-].
  assert (Hkq : key q = k').
  { assert (Hin : q ∈ filter (λ p, key p = k') (entries c))
      by (rewrite Hq; left).
    by apply list_elem_of_filter in Hin as [? _]. }
  assert (Hne : k' ≠ k) by congruence.
  rewrite He, (filter_around front back k v k' Hne).
  exists (q :: filter (λ p, key p ≠ k') front), (filter (λ p, key p ≠ k') back).
  split; [done|]. apply Forall_cons. split; [by rewrite Hkq|].
  by apply Forall_filter_keep.
Qed.

Lemma behind_only_step o c c' k v ks :
  wf c → k ∉ ks → N.of_nat (length ks) < capacity c →
  touches ks o → behind_only k v ks c →
  run_op o c = Ret (tt, c') →
  wf c' ∧ capacity c' = capacity c ∧ behind_only k v ks c'.
Proof.
  intros Hwf Hk Hlen Ho Hb Hrun. pose proof Hwf as [Hc _].
  pose proof (run_op_refines o c Hwf) as Href.
  destruct o as [k' v'|k'|k'|k'| |n]; cbn [model_op touches] in *;
    try done.
  - destruct Href as (c1 & Hrun1 & Hwf1 & He1 & Hcap1).
    rewrite Hrun in Hrun1. injection Hrun1 as <-.
    split; [done|]. split; [done|].
    destruct Hb as (front & back & He & Hall).
    assert (Hne : k' ≠ k) by congruence.
    rewrite He, (filter_around front back k v k' Hne) in He1.
    set (F := filter (λ p, key p ≠ k') front) in *.
    assert (HallF : Forall (λ q, key q ∈ ks) (mkPair k' v' :: F)).
    { apply Forall_cons. split; [done|]. by apply Forall_filter_keep. }
    assert (HndF : NoDup (key <$> mkPair k' v' :: F)).
    { rewrite fmap_cons. apply NoDup_cons. split.
      - intros (q & Heq & Hq)%list_elem_of_fmap.
        apply list_elem_of_filter in Hq as [Hq _]. cbn [key] in Heq.
        congruence.
      - apply key_filter_NoDup.
        pose proof (consistent_keys_NoDup c Hc) as Hnd.
        rewrite He, fmap_app in Hnd. by apply NoDup_app in Hnd as (? & _ & _). }
    pose proof (keys_within_length _ ks HndF HallF) as HlenF.
    exists (mkPair k' v' :: F),
      (take (N.to_nat (capacity c) - length (mkPair k' v' :: F) - 1)
         (filter (λ p, key p ≠ k') back)).
    split; [|done]. rewrite He1.
    change (mkPair k' v' :: F ++ mkPair k v :: filter (λ p, key p ≠ k') back)
      with ((mkPair k' v' :: F) ++
            mkPair k v :: filter (λ p, key p ≠ k') back).
    rewrite take_app_ge by lia.
    destruct (N.to_nat (capacity c) - length (mkPair k' v' :: F))%nat
      as [|m] eqn:Hm; [lia|].
    cbn [take]. by replace (S m - 1)%nat with m by lia.
  - destruct (model_touch k' (entries c)) as [es'|] eqn:Ht;
      [|congruence].
    destruct Href as (c1 & Hrun1 & Hwf1 & He1 & Hcap1).
    rewrite Hrun in Hrun1. injection Hrun1 as <-.
    split; [done|]. split; [done|]. unfold behind_only. rewrite He1.
    by apply (behind_only_touch c k v ks k').
  - destruct (model_touch k' (entries c)) as [es'|] eqn:Ht.
    + destruct Href as (c1 & Hrun1 & Hwf1 & He1 & Hcap1).
      rewrite Hrun in Hrun1. injection Hrun1 as <-.
      split; [done|]. split; [done|]. unfold behind_only. rewrite He1.
      by apply (behind_only_touch c k v ks k').
    + destruct Href as (c1 & Hrun1 & Hwf1 & He1 & Hcap1).
      rewrite Hrun in Hrun1. injection Hrun1 as <-.
      split; [done|]. split; [done|]. unfold behind_only. by rewrite He1.
  - destruct Href as (c1 & Hrun1 & Hwf1 & He1 & Hcap1).
    rewrite Hrun in Hrun1. injection Hrun1 as <-.
    split; [done|]. split; [done|]. unfold behind_only. by rewrite He1.
Qed.

Lemma behind_only_run ops c c' k v ks :
  wf c → k ∉ ks → N.of_nat (length ks) < capacity c →
  Forall (touches ks) ops → behind_only k v ks c →
  run ops c = Ret (tt, c') →
  wf c' ∧ behind_only k v ks c'.
Proof.
  revert c. induction ops as [|o ops IH]; intros c Hwf Hk Hlen Hops Hb;
    cbn [run].
  - unfold ret. by intros [= <-].
  - apply Forall_cons in Hops as [Ho Hops]. unfold bind.
    destruct (run_op o c) as [[[] c1]| | |] eqn:Hop; try done.
    destruct (behind_only_step o c c1 k v ks Hwf Hk Hlen Ho Hb Hop)
      as (Hwf1 & Hcap1 & Hb1).
    apply IH; try done. by rewrite Hcap1.
Qed.

(** X12. The least-recently-used guarantee.  If [k] is at the front of a
    well-formed cache with value [v] (as right after [insert(k, v)] or
    [get(k)]), then any sequence of [insert], [get], [getptr] and [has] calls
    that names only other keys, fewer of them than the capacity, leaves [k]
    in the cache with value [v] when it returns. *)
Theorem recently_used_survives c k v ks ops c' :
  wf c → front_key c = Some k → stored c k = Some v →
  k ∉ ks → N.of_nat (length ks) < capacity c →
  Forall (touches ks) ops →
  run ops c = Ret (tt, c') →
  has k c' = Ret (true, c') ∧ stored c' k = Some v.
Proof.
  intros Hwf Hfront Hstored Hk Hlen Hops Hrun. pose proof Hwf as [Hc _].
  assert (Hb : behind_only k v ks c).
  { exists [], (tail (entries c)). split; [|done].
    unfold front_key in Hfront. unfold entries.
    destruct (_list c) as [|[a [k0 v0]] l] eqn:Hl; [done|].
    cbn in Hfront. injection Hfront as ->.
    unfold stored in Hstored.
    rewrite (consistent_front c a k v0 l Hc Hl) in Hstored.
    unfold deref, List_get in Hstored. rewrite Hl in Hstored.
    cbn [node_at] in Hstored. rewrite decide_True in Hstored by done.
    cbn in Hstored. by injection Hstored as ->. }
  destruct (behind_only_run ops c c' k v ks Hwf Hk Hlen Hops Hb Hrun)
    as ([Hc' _] & front & back & He & _).
  assert (Hin : mkPair k v ∈ entries c').
  { rewrite He, elem_of_app. right. left. }
  split.
  - apply has_true_iff, (consistent_has_key c' k Hc').
    by apply (list_elem_of_fmap_2 key) in Hin.
  - by apply (consistent_stored_iff c' k v Hc').
Qed.

End LRUCache.


(** * Instances with string keys and integer data *)

Definition cache_cap2 : LRUCache (TKey:=string) (TData:=Z) := LRUCache_int 2.

(** The cache holding [B] (front) and [A] (back), capacity 2, as
    [insert(A, 1); insert(B, 2)] leaves it. *)
Definition cache_BA : LRUCache (TKey:=string) (TData:=Z) :=
  {| _list := [(3%positive, mkPair "B"%string 2%Z);
               (2%positive, mkPair "A"%string 1%Z)];
     _map := <["B"%string := Some 3%positive]>
               (<["A"%string := Some 2%positive]> ∅);
     capacity := 2 |}.

Lemma cache_cap2_constructed : constructed cache_cap2.
Proof. apply constructed_int. split; by vm_compute. Qed.

Lemma cache_BA_run :
  run [OpInsert "A"%string 1%Z; OpInsert "B"%string 2%Z] cache_cap2
  = Ret (tt, cache_BA).
Proof. vm_compute. reflexivity. Qed.

Lemma cache_BA_wf : wf cache_BA.
Proof.
  apply reachable_wf. eexists cache_cap2, _.
  split; [apply cache_cap2_constructed|apply cache_BA_run].
Qed.

Lemma size_invariant_witness :
  constructed cache_cap2 ∧ 1 <= capacity cache_cap2 ∧
  run [OpInsert "A"%string 1%Z; OpInsert "B"%string 2%Z] cache_cap2
    = Ret (tt, cache_BA) ∧
  size (_map cache_BA) = length (_list cache_BA) ∧
  get_size cache_BA = Ret (N.of_nat (length (_list cache_BA)), cache_BA) ∧
  get_capacity cache_BA = Ret (capacity cache_BA, cache_BA) ∧
  N.of_nat (length (_list cache_BA)) <= capacity cache_BA.
Proof.
  split; [apply cache_cap2_constructed|].
  split; [by vm_compute|].
  split; [apply cache_BA_run|].
  apply (size_invariant cache_cap2
           [OpInsert "A"%string 1%Z; OpInsert "B"%string 2%Z]).
  - apply cache_cap2_constructed.
  - by vm_compute.
  - apply cache_BA_run.
Defined.

Lemma front_after_access_witness :
  consistent cache_BA ∧ has "A"%string cache_BA = Ret (true, cache_BA) ∧
  (∃ r c', get "A"%string cache_BA = Ret (r, c') ∧
           has "A"%string c' = Ret (true, c') ∧
           front_key c' = Some "A"%string) ∧
  (∃ r c', insert "A"%string 7%Z cache_BA = Ret (r, c') ∧
           (has "A"%string c' = Ret (true, c') →
            front_key c' = Some "A"%string) ∧
           (1 <= capacity cache_BA → has "A"%string c' = Ret (true, c'))).
Proof.
  assert (Hk : has "A"%string cache_BA = Ret (true, cache_BA)).
  { vm_compute. reflexivity. }
  split; [apply cache_BA_wf|]. split; [exact Hk|].
  destruct (front_after_access cache_BA "A"%string 7%Z (proj1 cache_BA_wf))
    as [Hget Hins].
  split; [exact (Hget Hk)|exact Hins].
Defined.

Lemma eviction_step_witness :
  consistent (resized 1 cache_BA) ∧
  capacity (resized 1 cache_BA) < N.of_nat (size (_map (resized 1 cache_BA))) ∧
  ∃ l a p c',
    _list (resized 1 cache_BA) = l ++ [(a, p)] ∧
    back_key (resized 1 cache_BA) = Some (key p) ∧
    evict_step (resized 1 cache_BA) = Ret (tt, c') ∧
    has (key p) (resized 1 cache_BA) = Ret (true, resized 1 cache_BA) ∧
    has (key p) c' = Ret (false, c') ∧
    _list c' = l ∧
    (∀ k, k ≠ key p → _map c' !! k = _map (resized 1 cache_BA) !! k) ∧
    (∀ k, k ≠ key p → stored c' k = stored (resized 1 cache_BA) k) ∧
    capacity c' = capacity (resized 1 cache_BA) ∧
    consistent c' ∧
    evict (resized 1 cache_BA) = evict c'.
Proof.
  assert (Hc : consistent (resized 1 cache_BA)).
  { apply resized_consistent, cache_BA_wf. }
  assert (Hlt : capacity (resized 1 cache_BA)
                < N.of_nat (size (_map (resized 1 cache_BA)))).
  { vm_compute. reflexivity. }
  split; [exact Hc|]. split; [exact Hlt|].
  exact (eviction_step (resized 1 cache_BA) Hc Hlt).
Defined.

Lemma overwrite_witness :
  wf cache_BA ∧ 1 <= capacity cache_BA ∧
  ∃ r1 c1 r2 c2 r3 c3 s0 s1,
    insert "A"%string 5%Z cache_BA = Ret (r1, c1) ∧
    insert "A"%string 7%Z c1 = Ret (r2, c2) ∧
    get_size cache_BA = Ret (s0, cache_BA) ∧ get_size c1 = Ret (s1, c1) ∧
    get_size c2 = Ret (s1, c2) ∧
    (is_Some (_map cache_BA !! "A"%string) ∨ s0 = capacity cache_BA →
     s1 = s0) ∧
    (_map cache_BA !! "A"%string = None → s0 < capacity cache_BA →
     s1 = s0 + 1) ∧
    front_key c2 = Some "A"%string ∧
    get "A"%string c2 = Ret (r3, c3) ∧ deref c3 r3 = Some 7%Z ∧
    front_key c3 = Some "A"%string.
Proof.
  assert (Hcap : 1 <= capacity cache_BA) by (by vm_compute).
  split; [apply cache_BA_wf|]. split; [exact Hcap|].
  exact (overwrite cache_BA "A"%string 5%Z 7%Z cache_BA_wf Hcap).
Defined.

(** C4 as stated fails: on the empty cache of capacity 3 (scenario 3 of the
    spec), [insert(A, 1); insert(A, 2)] leaves [get_size()] at 1, while it
    was 0 before the first insert. *)
Lemma overwrite_counterexample :
  wf (LRUCache_int 3 : LRUCache (TKey:=string) (TData:=Z)) ∧
  1 <= capacity (LRUCache_int 3 : LRUCache (TKey:=string) (TData:=Z)) ∧
  ¬ (∃ r1 c1 r2 c2 s,
       insert "A"%string 1%Z (LRUCache_int 3) = Ret (r1, c1) ∧
       insert "A"%string 2%Z c1 = Ret (r2, c2) ∧
       get_size (LRUCache_int 3 : LRUCache (TKey:=string) (TData:=Z))
         = Ret (s, LRUCache_int 3) ∧
       get_size c2 = Ret (s, c2)).
Proof.
  split.
  { apply constructed_wf, constructed_int. split; by vm_compute. }
  split; [by vm_compute|].
  intros (r1 & c1 & r2 & c2 & s & H1 & H2 & H3 & H4).
  vm_compute in H1. injection H1 as <- <-.
  vm_compute in H2. injection H2 as <- <-.
  vm_compute in H3. injection H3 as <-.
  vm_compute in H4. discriminate H4.
Qed.

Lemma refresh_saves_from_eviction_witness :
  "A"%string ≠ "B"%string ∧ "A"%string ≠ "C"%string ∧
  "B"%string ≠ "C"%string ∧
  ∃ r1 c1 r2 c2 r3 c3 r4 c4,
    insert "A"%string 1%Z (LRUCache_int 2) = Ret (r1, c1) ∧
    insert "B"%string 2%Z c1 = Ret (r2, c2) ∧
    get "A"%string c2 = Ret (r3, c3) ∧
    insert "C"%string 3%Z c3 = Ret (r4, c4) ∧
    has "B"%string c4 = Ret (false, c4) ∧
    has "A"%string c4 = Ret (true, c4) ∧
    has "C"%string c4 = Ret (true, c4) ∧
    get_size c4 = Ret (2, c4) ∧
    entries c3 = [mkPair "A"%string 1%Z; mkPair "B"%string 2%Z] ∧
    entries c4 = [mkPair "C"%string 3%Z; mkPair "A"%string 1%Z].
Proof.
  assert (HAB : "A"%string ≠ "B"%string) by discriminate.
  assert (HAC : "A"%string ≠ "C"%string) by discriminate.
  assert (HBC : "B"%string ≠ "C"%string) by discriminate.
  split; [exact HAB|]. split; [exact HAC|]. split; [exact HBC|].
  exact (refresh_saves_from_eviction "A"%string "B"%string "C"%string
           1%Z 2%Z 3%Z HAB HAC HBC).
Defined.

Lemma set_capacity_cases_witness :
  consistent cache_BA ∧ 0 < capacity cache_BA ∧
  _list cache_BA = [(3%positive, mkPair "B"%string 2%Z);
                    (2%positive, mkPair "A"%string 1%Z)] ∧
  (∃ c', set_capacity 1 cache_BA = Ret (tt, c') ∧
         get_capacity c' = Ret (1, c') ∧
         _list c' = take (N.to_nat 1) (_list cache_BA) ∧
         get_size c' = Ret (N.min 1 (N.of_nat (size (_map cache_BA))), c') ∧
         consistent c') ∧
  (∃ c', set_capacity 1 cache_BA = Ret (tt, c') ∧
         get_size c' = Ret (1, c') ∧
         has "B"%string c' = Ret (true, c') ∧
         has "A"%string c' = Ret (false, c')).
Proof.
  assert (Hpos : 0 < capacity cache_BA) by (vm_compute; reflexivity).
  split; [apply cache_BA_wf|]. split; [exact Hpos|]. split; [reflexivity|].
  destruct (set_capacity_cases cache_BA 1 (proj1 cache_BA_wf))
    as (Hshrink & _ & Hexample).
  split; [exact (Hshrink Hpos)|].
  exact (Hexample _ _ _ _ _ _ Hpos eq_refl).
Defined.

Lemma get_cases_witness :
  consistent cache_BA ∧
  has "A"%string cache_BA = Ret (true, cache_BA) ∧
  has "C"%string cache_BA = Ret (false, cache_BA) ∧
  get "C"%string cache_BA = Crash ∧
  (∀ ops, run (OpGet "C"%string :: ops) cache_BA = Crash) ∧
  ∃ a v l1 l2 c',
    _list cache_BA = l1 ++ (a, mkPair "A"%string v) :: l2 ∧
    stored cache_BA "A"%string = Some v ∧
    get "A"%string cache_BA = Ret (Some a, c') ∧
    _list c' = (a, mkPair "A"%string v) :: l1 ++ l2 ∧
    _map c' = _map cache_BA ∧ capacity c' = capacity cache_BA ∧
    deref c' (Some a) = Some v ∧ consistent c'.
Proof.
  assert (HA : has "A"%string cache_BA = Ret (true, cache_BA)).
  { vm_compute. reflexivity. }
  assert (HC : has "C"%string cache_BA = Ret (false, cache_BA)).
  { vm_compute. reflexivity. }
  split; [apply cache_BA_wf|]. split; [exact HA|]. split; [exact HC|].
  destruct (get_cases cache_BA "C"%string (proj1 cache_BA_wf))
    as (Hiff & Hfatal & _).
  split; [exact (proj2 Hiff HC)|]. split; [exact (Hfatal HC)|].
  destruct (get_cases cache_BA "A"%string (proj1 cache_BA_wf))
    as (_ & _ & Hhit).
  exact (Hhit HA).
Defined.

Lemma getptr_cases_witness :
  consistent cache_BA ∧
  has "A"%string cache_BA = Ret (true, cache_BA) ∧
  has "C"%string cache_BA = Ret (false, cache_BA) ∧
  getptr "C"%string cache_BA = Ret (nullptr, cache_BA) ∧
  ∃ a v l1 l2 c',
    _list cache_BA = l1 ++ (a, mkPair "A"%string v) :: l2 ∧
    stored cache_BA "A"%string = Some v ∧
    getptr "A"%string cache_BA = Ret (Some a, c') ∧
    get "A"%string cache_BA = Ret (Some a, c') ∧
    _list c' = (a, mkPair "A"%string v) :: l1 ++ l2 ∧
    _map c' = _map cache_BA ∧ capacity c' = capacity cache_BA ∧
    deref c' (Some a) = Some v.
Proof.
  assert (HA : has "A"%string cache_BA = Ret (true, cache_BA)).
  { vm_compute. reflexivity. }
  assert (HC : has "C"%string cache_BA = Ret (false, cache_BA)).
  { vm_compute. reflexivity. }
  split; [apply cache_BA_wf|]. split; [exact HA|]. split; [exact HC|].
  destruct (getptr_cases cache_BA "C"%string (proj1 cache_BA_wf))
    as (Hmiss & _ & _).
  split; [exact (Hmiss HC)|].
  destruct (getptr_cases cache_BA "A"%string (proj1 cache_BA_wf))
    as (_ & Hhit & _).
  exact (Hhit HA).
Defined.

Definition cache_cap0 : LRUCache (TKey:=string) (TData:=Z) := LRUCache_int 0.

Lemma zero_capacity_stays_empty_witness :
  consistent cache_cap0 ∧
  get_capacity cache_cap0 = Ret (0, cache_cap0) ∧
  get_size cache_cap0 = Ret (0, cache_cap0) ∧
  (∀ k v, ∃ r c',
     insert k v cache_cap0 = Ret (r, c') ∧ get_size c' = Ret (0, c') ∧
     has k c' = Ret (false, c') ∧ get_capacity c' = Ret (0, c') ∧
     deref c' r = None) ∧
  (∀ n, set_capacity n cache_cap0 = Ret (tt, cache_cap0)) ∧
  (∀ k, get k cache_cap0 = Crash) ∧
  (∀ k, getptr k cache_cap0 = Ret (nullptr, cache_cap0)) ∧
  (∀ k, has k cache_cap0 = Ret (false, cache_cap0)) ∧
  (∃ c', clear cache_cap0 = Ret (tt, c') ∧ get_size c' = Ret (0, c') ∧
         get_capacity c' = Ret (0, c')) ∧
  (∀ ops c', run ops cache_cap0 = Ret (tt, c') →
     get_capacity c' = Ret (0, c') ∧ get_size c' = Ret (0, c')).
Proof.
  assert (Hc : consistent cache_cap0) by apply empty_consistent.
  assert (Hcap : get_capacity cache_cap0 = Ret (0, cache_cap0)).
  { vm_compute. reflexivity. }
  assert (Hsize : get_size cache_cap0 = Ret (0, cache_cap0)).
  { vm_compute. reflexivity. }
  split; [exact Hc|]. split; [exact Hcap|]. split; [exact Hsize|].
  exact (zero_capacity_stays_empty cache_cap0 Hc Hcap Hsize).
Defined.

(** * Instances for the further properties *)

(** The cache [cache_BA] after [getptr(A); insert(A, 5)]. *)
Definition cache_A5_B : LRUCache (TKey:=string) (TData:=Z) :=
  {| _list := [(4%positive, mkPair "A"%string 5%Z);
               (3%positive, mkPair "B"%string 2%Z)];
     _map := <["A"%string := Some 4%positive]>
               (<["B"%string := Some 3%positive]> ∅);
     capacity := 2 |}.

Lemma reachable_bijection_witness :
  constructed cache_cap2 ∧
  run [OpInsert "A"%string 1%Z; OpInsert "B"%string 2%Z] cache_cap2
    = Ret (tt, cache_BA) ∧
  NoDup (key <$> entries cache_BA) ∧
  (∀ k, has k cache_BA = Ret (true, cache_BA) ↔
        k ∈ key <$> entries cache_BA) ∧
  (∀ k v, stored cache_BA k = Some v ↔ mkPair k v ∈ entries cache_BA) ∧
  (∀ k e, _map cache_BA !! k = Some e →
          ∃ v, List_get e (_list cache_BA) = Some (mkPair k v)).
Proof.
  split; [apply cache_cap2_constructed|]. split; [apply cache_BA_run|].
  exact (reachable_bijection cache_cap2 _ cache_BA
           cache_cap2_constructed cache_BA_run).
Defined.

Lemma insert_then_lookup_witness :
  consistent cache_BA ∧ 1 <= capacity cache_BA ∧
  ∃ r c',
    insert "C"%string 3%Z cache_BA = Ret (r, c') ∧ deref c' r = Some 3%Z ∧
    stored c' "C"%string = Some 3%Z ∧ has "C"%string c' = Ret (true, c') ∧
    ∃ r' c'', get "C"%string c' = Ret (r', c'') ∧ deref c'' r' = Some 3%Z ∧
              entries c'' = entries c'.
Proof.
  assert (Hcap : 1 <= capacity cache_BA) by (by vm_compute).
  split; [apply cache_BA_wf|]. split; [exact Hcap|].
  exact (insert_then_lookup cache_BA "C"%string 3%Z (proj1 cache_BA_wf) Hcap).
Defined.

Lemma insert_keeps_others_witness :
  wf cache_BA ∧
  (has "A"%string cache_BA = Ret (true, cache_BA) ∨
   N.of_nat (size (_map cache_BA)) < capacity cache_BA) ∧
  ∃ r c',
    insert "A"%string 9%Z cache_BA = Ret (r, c') ∧
    entries c' =
      mkPair "A"%string 9%Z ::
      filter (λ p, key p ≠ "A"%string) (entries cache_BA) ∧
    (∀ k', k' ≠ "A"%string → stored c' k' = stored cache_BA k').
Proof.
  assert (Hroom : has "A"%string cache_BA = Ret (true, cache_BA) ∨
                  N.of_nat (size (_map cache_BA)) < capacity cache_BA).
  { left. vm_compute. reflexivity. }
  split; [apply cache_BA_wf|]. split; [exact Hroom|].
  exact (insert_keeps_others cache_BA "A"%string 9%Z cache_BA_wf Hroom).
Defined.

Lemma insert_evicts_lru_witness :
  wf cache_BA ∧ 1 <= capacity cache_BA ∧
  has "C"%string cache_BA = Ret (false, cache_BA) ∧
  N.of_nat (size (_map cache_BA)) = capacity cache_BA ∧
  ∃ r c' es p,
    entries cache_BA = es ++ [p] ∧ back_key cache_BA = Some (key p) ∧
    insert "C"%string 3%Z cache_BA = Ret (r, c') ∧
    entries c' = mkPair "C"%string 3%Z :: es ∧
    has (key p) c' = Ret (false, c') ∧
    (∀ k', k' ≠ "C"%string → k' ≠ key p →
           stored c' k' = stored cache_BA k') ∧
    get_size c' = Ret (capacity cache_BA, c').
Proof.
  assert (Hcap : 1 <= capacity cache_BA) by (by vm_compute).
  assert (HC : has "C"%string cache_BA = Ret (false, cache_BA)).
  { vm_compute. reflexivity. }
  assert (Hfull : N.of_nat (size (_map cache_BA)) = capacity cache_BA).
  { vm_compute. reflexivity. }
  split; [apply cache_BA_wf|]. split; [exact Hcap|]. split; [exact HC|].
  split; [exact Hfull|].
  exact (insert_evicts_lru cache_BA "C"%string 3%Z cache_BA_wf Hcap HC Hfull).
Defined.

Lemma run_refines_witness :
  wf cache_BA ∧
  match model_run [OpGet "A"%string; OpInsert "C"%string 3%Z;
                   OpGetptr "B"%string; OpSetCapacity 1]
          (entries cache_BA, capacity cache_BA) with
  | Some (es, cap) =>
      ∃ c', run [OpGet "A"%string; OpInsert "C"%string 3%Z;
                 OpGetptr "B"%string; OpSetCapacity 1] cache_BA
              = Ret (tt, c') ∧
            entries c' = es ∧ capacity c' = cap
  | None =>
      run [OpGet "A"%string; OpInsert "C"%string 3%Z;
           OpGetptr "B"%string; OpSetCapacity 1] cache_BA = Crash
  end.
Proof.
  split; [apply cache_BA_wf|].
  exact (run_refines [OpGet "A"%string; OpInsert "C"%string 3%Z;
                      OpGetptr "B"%string; OpSetCapacity 1]
           cache_BA cache_BA_wf).
Defined.

Lemma get_changes_only_order_witness :
  consistent cache_BA ∧ has "A"%string cache_BA = Ret (true, cache_BA) ∧
  ∃ r c',
    get "A"%string cache_BA = Ret (r, c') ∧
    (∀ k', stored c' k' = stored cache_BA k') ∧
    (∀ n, get_size cache_BA = Ret (n, cache_BA) → get_size c' = Ret (n, c')) ∧
    get "A"%string c' = Ret (r, c') ∧ getptr "A"%string c' = Ret (r, c').
Proof.
  assert (HA : has "A"%string cache_BA = Ret (true, cache_BA)).
  { vm_compute. reflexivity. }
  split; [apply cache_BA_wf|]. split; [exact HA|].
  exact (get_changes_only_order cache_BA "A"%string (proj1 cache_BA_wf) HA).
Defined.

Lemma set_capacity_twice_witness :
  consistent cache_BA ∧ 0 < capacity cache_BA ∧ 0 < 1 ∧
  ∃ c1 c2,
    set_capacity 1 cache_BA = Ret (tt, c1) ∧
    set_capacity 2 c1 = Ret (tt, c2) ∧
    entries c2 = take (N.to_nat (N.min 1 2)) (entries cache_BA) ∧
    get_capacity c2 = Ret (2, c2).
Proof.
  assert (Hpos : 0 < capacity cache_BA) by (vm_compute; reflexivity).
  assert (Hn : 0 < 1) by (vm_compute; reflexivity).
  split; [apply cache_BA_wf|]. split; [exact Hpos|]. split; [exact Hn|].
  exact (set_capacity_twice cache_BA 1 2 (proj1 cache_BA_wf) Hpos Hn).
Defined.

Lemma set_capacity_zero_is_final_witness :
  consistent cache_BA ∧ 0 < capacity cache_BA ∧
  ∃ c1,
    set_capacity 0 cache_BA = Ret (tt, c1) ∧ entries c1 = [] ∧
    ∀ ops c2, run ops c1 = Ret (tt, c2) →
      get_capacity c2 = Ret (0, c2) ∧ get_size c2 = Ret (0, c2) ∧
      entries c2 = [].
Proof.
  assert (Hpos : 0 < capacity cache_BA) by (vm_compute; reflexivity).
  split; [apply cache_BA_wf|]. split; [exact Hpos|].
  exact (set_capacity_zero_is_final cache_BA (proj1 cache_BA_wf) Hpos).
Defined.

Lemma constructor_capacity_witness :
  (- 2 ^ 31 <= -1 < 2 ^ 31)%Z ∧
  get_capacity (LRUCache_int (-1) : LRUCache (TKey:=string) (TData:=Z)) =
    Ret (Z.to_N (if (-1 <? 0)%Z then 2 ^ 64 + -1 else -1),
         LRUCache_int (-1)) ∧
  ((-1 < 0)%Z →
   2 ^ 64 - 2 ^ 31
   <= capacity (LRUCache_int (-1) : LRUCache (TKey:=string) (TData:=Z))) ∧
  entries (LRUCache_int (-1) : LRUCache (TKey:=string) (TData:=Z)) = [].
Proof.
  assert (Hrange : (- 2 ^ 31 <= -1 < 2 ^ 31)%Z) by (split; by vm_compute).
  split; [exact Hrange|].
  exact (constructor_capacity (TKey:=string) (TData:=Z) (-1) Hrange).
Defined.

Lemma fill_fresh_cache_witness :
  constructed cache_cap2 ∧
  NoDup (key <$> [mkPair "A"%string 1%Z; mkPair "B"%string 2%Z;
                  mkPair "C"%string 3%Z]) ∧
  ∃ c, run (inserts [mkPair "A"%string 1%Z; mkPair "B"%string 2%Z;
                     mkPair "C"%string 3%Z]) cache_cap2 = Ret (tt, c) ∧
       entries c =
         take (N.to_nat (capacity cache_cap2))
           (reverse [mkPair "A"%string 1%Z; mkPair "B"%string 2%Z;
                     mkPair "C"%string 3%Z]) ∧
       get_capacity c = Ret (capacity cache_cap2, c).
Proof.
  assert (Hnd : NoDup (key <$> [mkPair "A"%string 1%Z; mkPair "B"%string 2%Z;
                                mkPair "C"%string 3%Z])).
  { compute_done. }
  split; [apply cache_cap2_constructed|]. split; [exact Hnd|].
  exact (fill_fresh_cache cache_cap2 _ cache_cap2_constructed Hnd).
Defined.

Lemma recently_used_survives_witness :
  wf cache_BA ∧ front_key cache_BA = Some "B"%string ∧
  stored cache_BA "B"%string = Some 2%Z ∧
  ("B"%string ∉ ["A"%string]) ∧
  N.of_nat (length ["A"%string]) < capacity cache_BA ∧
  Forall (touches ["A"%string])
    [OpGetptr "A"%string; OpInsert "A"%string 5%Z] ∧
  run [OpGetptr "A"%string; OpInsert "A"%string 5%Z] cache_BA
    = Ret (tt, cache_A5_B) ∧
  has "B"%string cache_A5_B = Ret (true, cache_A5_B) ∧
  stored cache_A5_B "B"%string = Some 2%Z.
Proof.
  assert (Hfront : front_key cache_BA = Some "B"%string) by reflexivity.
  assert (Hstored : stored cache_BA "B"%string = Some 2%Z).
  { vm_compute. reflexivity. }
  assert (Hk : "B"%string ∉ ["A"%string]).
  { compute_done. }
  assert (Hlen : N.of_nat (length ["A"%string]) < capacity cache_BA).
  { vm_compute. reflexivity. }
  assert (Hops : Forall (touches ["A"%string])
                   [OpGetptr "A"%string; OpInsert "A"%string 5%Z]).
  { repeat constructor. }
  assert (Hrun : run [OpGetptr "A"%string; OpInsert "A"%string 5%Z] cache_BA
                 = Ret (tt, cache_A5_B)).
  { vm_compute. reflexivity. }
  split; [apply cache_BA_wf|]. split; [exact Hfront|]. split; [exact Hstored|].
  split; [exact Hk|]. split; [exact Hlen|]. split; [exact Hops|].
  split; [exact Hrun|].
  exact (recently_used_survives cache_BA "B"%string 2%Z ["A"%string]
           [OpGetptr "A"%string; OpInsert "A"%string 5%Z] cache_A5_B
           cache_BA_wf Hfront Hstored Hk Hlen Hops Hrun).
Defined.
